(** * build-tracer.py: a shallow embedding and its verified properties

    The script shells out to git, checks return codes and prints
    diagnostics.  Its functions are embedded as computations in a state and
    exception monad over an explicit model of the process (working
    directory, console, subprocesses), with the Python library functions the
    script calls (str.strip, bytes.decode, os.path.abspath, subprocess.run,
    argparse) modelled after CPython 3.11 on POSIX. *)

From Stdlib Require Import ZArith NArith List Bool String Ascii Lia.
From Stdlib.Strings Require Byte.
Import ListNotations.

Open Scope Z_scope.

(** ** Python text

    A Python [str] is a sequence of Unicode code points; [bytes] is a
    sequence of bytes. *)

Definition char := N.
Definition str := list char.
Definition bytes := list Byte.byte.

(** String literals of the script (all ASCII). *)
Definition lit (s : string) : str :=
  map N_of_ascii (list_ascii_of_string s).

Definition ord (a : ascii) : char := N_of_ascii a.

Fixpoint str_eqb (a b : str) : bool :=
  match a, b with
  | [], [] => true
  | x :: a', y :: b' => N.eqb x y && str_eqb a' b'
  | _, _ => false
  end.

Definition is_nil {A} (l : list A) : bool :=
  match l with [] => true | _ => false end.

(** [sep.join(parts)] *)
Fixpoint join (sep : str) (parts : list str) : str :=
  match parts with
  | [] => []
  | [p] => p
  | p :: rest => p ++ sep ++ join sep rest
  end.

(** [s.startswith(prefix)] *)
Fixpoint startswith (s prefix : str) : bool :=
  match prefix, s with
  | [], _ => true
  | p :: prefix', c :: s' => N.eqb p c && startswith s' prefix'
  | _ :: _, [] => false
  end.

(** [c in s] for a one-character [c] *)
Definition contains (c : char) (s : str) : bool := existsb (N.eqb c) s.

(** [str.isspace] on one character (Unicode 14 database). *)
Definition isspace (c : char) : bool :=
  ((9 <=? c) && (c <=? 13) || (28 <=? c) && (c <=? 32)
   || (c =? 133) || (c =? 160) || (c =? 5760)
   || (8192 <=? c) && (c <=? 8202)
   || (c =? 8232) || (c =? 8233) || (c =? 8239) || (c =? 8287)
   || (c =? 12288))%N.

Fixpoint lstrip (s : str) : str :=
  match s with
  | c :: s' => if isspace c then lstrip s' else s
  | [] => []
  end.

Definition rstrip (s : str) : str := rev (lstrip (rev s)).

(** [s.strip()] *)
Definition strip (s : str) : str := rstrip (lstrip s).

(** [bytes.decode('utf-8')], strict error handling: [None] stands for
    UnicodeDecodeError. *)
Definition continuation (b : N) : bool := ((128 <=? b) && (b <=? 191))%N.

Definition in_range (lo hi b : N) : bool := ((lo <=? b) && (b <=? hi))%N.

Fixpoint decode_utf8 (bs : list N) : option str :=
  match bs with
  | [] => Some []
  | b0 :: r0 =>
    if (b0 <? 128)%N then option_map (cons b0) (decode_utf8 r0)
    else if in_range 194 223 b0 then
      match r0 with
      | b1 :: r1 =>
        if continuation b1
        then option_map (cons ((b0 - 192) * 64 + (b1 - 128))%N) (decode_utf8 r1)
        else None
      | _ => None
      end
    else if in_range 224 239 b0 then
      match r0 with
      | b1 :: b2 :: r2 =>
        if in_range (if (b0 =? 224)%N then 160 else 128)
                    (if (b0 =? 237)%N then 159 else 191) b1
           && continuation b2
        then option_map
               (cons ((b0 - 224) * 4096 + (b1 - 128) * 64 + (b2 - 128))%N)
               (decode_utf8 r2)
        else None
      | _ => None
      end
    else if in_range 240 244 b0 then
      match r0 with
      | b1 :: b2 :: b3 :: r3 =>
        if in_range (if (b0 =? 240)%N then 144 else 128)
                    (if (b0 =? 244)%N then 143 else 191) b1
           && continuation b2 && continuation b3
        then option_map
               (cons ((b0 - 240) * 262144 + (b1 - 128) * 4096
                      + (b2 - 128) * 64 + (b3 - 128))%N)
               (decode_utf8 r3)
        else None
      | _ => None
      end
    else None
  end.

Definition decode (b : bytes) : option str :=
  decode_utf8 (map Byte.to_N b).

(** ** Python values stored by argparse

    An attribute of the parsed namespace holds the option's default
    ([False] or a string), the string given on the command line, or the
    list argparse stores when it is not left with exactly one argument
    string (with the value [--], the empty list). *)

Inductive pyval : Type :=
| PyFalse
| PyStr (s : str)
| PyList (l : list str).

(** Truth value of an object in an [if]. *)
Definition truthy (v : pyval) : bool :=
  match v with
  | PyFalse => false
  | PyStr s => negb (str_eqb s [])
  | PyList l => negb (is_nil l)
  end.

(** ** The process and its environment *)

(** What [subprocess.run(cmd, shell=True, stdout=PIPE, timeout=10)] meets. *)
Inductive proc_outcome : Type :=
| Exited (returncode : Z) (stdout : bytes)
    (* the shell ran the command to completion within the timeout *)
| TimedOut (stdout : option bytes)
    (* killed after 10 seconds; the output read so far, [None] when nothing
       had been read (subprocess.Popen._check_timeout) *)
| SpawnFailed.
    (* any other exception out of subprocess.run *)

Inductive event : Type :=
| EvExec (dir cmd : str)     (* subprocess.run called on [cmd] in [dir] *)
| EvStdout (text : str)      (* text written to sys.stdout *)
| EvStderr (text : str)      (* text written to sys.stderr *)
| EvUsage                    (* argparse usage and error message, on stderr *)
| EvHelp.                    (* argparse help text, on stdout *)

(** The environment of one run.  The directory tree is fixed during the
    run: [w_resolve p] is the directory [os.chdir(p)] ends in for an
    absolute path [p], or [None] when the call fails.  [w_spawn] gives the
    outcome of a command from the commands run before it, the directory it
    runs in and its text. *)
Record World : Type := mkWorld {
  w_argv : list str;                       (* sys.argv[1:] *)
  w_resolve : str -> option str;
  w_spawn : list (str * str) -> str -> str -> proc_outcome
}.

Record OS : Type := mkOS {
  cwd : str;            (* the working directory of the process *)
  log : list event      (* what the process has done so far, oldest first *)
}.

Definition execs_of (l : list event) : list (str * str) :=
  flat_map (fun e => match e with EvExec d c => [(d, c)] | _ => [] end) l.

Definition stderr_of (l : list event) : list str :=
  flat_map (fun e => match e with EvStderr t => [t] | _ => [] end) l.

Definition stdout_of (l : list event) : list str :=
  flat_map (fun e => match e with EvStdout t => [t] | _ => [] end) l.

(** ** Exceptions and the monad of the script *)

Inductive exn : Type :=
| SystemExit (code : Z)
| TimeoutExpired (stdout : option bytes)
| CalledProcessError (returncode : Z) (stdout : bytes)
| UnicodeDecodeError
| AttributeError
| TypeError
| OSError.

(** [SystemExit] derives from BaseException only; [except Exception] does not
    catch it. *)
Definition is_Exception (e : exn) : bool :=
  match e with
  | SystemExit _ => false
  | _ => true
  end.

Inductive result (A : Type) : Type :=
| Ret (a : A) (s : OS)
| Raise (e : exn) (s : OS).

Arguments Ret {A} a s.
Arguments Raise {A} e s.

Definition M (A : Type) : Type := OS -> result A.

Definition ret {A} (a : A) : M A := fun s => Ret a s.

Definition raise {A} (e : exn) : M A := fun s => Raise e s.

Definition bind {A B} (m : M A) (k : A -> M B) : M B :=
  fun s =>
    match m s with
    | Ret a s' => k a s'
    | Raise e s' => Raise e s'
    end.

Declare Scope py_scope.
Delimit Scope py_scope with py.

Notation "x <- m ;; k" := (bind m (fun x => k))
  (at level 100, m at next level, right associativity) : py_scope.
Notation "' p <- m ;; k" := (bind m (fun x => match x with p => k end))
  (at level 100, p pattern, m at next level, right associativity) : py_scope.
Notation "m ;; k" := (bind m (fun _ => k))
  (at level 100, right associativity) : py_scope.

Open Scope py_scope.

(** [try: body except ex: handler(ex)] with a handler that re-raises what
    it does not handle. *)
Definition try_except {A} (body : M A) (handler : exn -> M A) : M A :=
  fun s =>
    match body s with
    | Ret a s' => Ret a s'
    | Raise e s' => handler e s'
    end.

(** [try: body finally: cleanup]: the cleanup runs on every exit of the
    body; an exception out of the cleanup replaces the body's outcome. *)
Definition try_finally {A} (body : M A) (cleanup : M unit) : M A :=
  fun s =>
    match body s with
    | Ret a s1 =>
      match cleanup s1 with
      | Ret _ s2 => Ret a s2
      | Raise e s2 => Raise e s2
      end
    | Raise e s1 =>
      match cleanup s1 with
      | Ret _ s2 => Raise e s2
      | Raise e' s2 => Raise e' s2
      end
    end.

Definition state_of {A} (r : result A) : OS :=
  match r with
  | Ret _ s => s
  | Raise _ s => s
  end.

(** Exit status of the interpreter when [main()] ends this way: 0 on a
    normal return, the code of a SystemExit, 1 for an uncaught exception. *)
Definition exit_status {A} (r : result A) : Z :=
  match r with
  | Ret _ _ => 0
  | Raise (SystemExit c) _ => c
  | Raise _ _ => 1
  end.

Definition emit (e : event) : M unit :=
  fun s => Ret tt (mkOS (cwd s) (log s ++ [e])).

(** [print(a, b, ...)]: the arguments separated by one space, then a
    newline. *)
Definition print (args : list str) : M unit :=
  emit (EvStdout (join (lit " ") args ++ lit (String "010" EmptyString))).

(** [print(a, b, ..., file=sys.stderr)] *)
Definition eprint (args : list str) : M unit :=
  emit (EvStderr (join (lit " ") args ++ lit (String "010" EmptyString))).

(** [sys.exit(code)] *)
Definition sys_exit {A} (code : Z) : M A := raise (SystemExit code).

(** [b.decode('utf-8')] as a computation. *)
Definition bytes_decode (b : bytes) : M str :=
  match decode b with
  | Some t => ret t
  | None => raise UnicodeDecodeError
  end.

(** ** os.path (posixpath) *)

Definition slash : char := ord "/".

(** [path.isabs(s)] *)
Definition isabs (s : str) : bool := startswith s [slash].

(** [path.join(a, b)] *)
Definition path_join (a b : str) : str :=
  if startswith b [slash] then b
  else if is_nil a || N.eqb (last a 0%N) slash then a ++ b
  else a ++ [slash] ++ b.

(** [s.split(sep)] for a one-character separator *)
Fixpoint split_on (sep : char) (s : str) : list str :=
  match s with
  | [] => [[]]
  | c :: s' =>
    if N.eqb c sep then [] :: split_on sep s'
    else match split_on sep s' with
         | h :: t => (c :: h) :: t
         | [] => [[c]]
         end
  end.

(** One turn of the loop of [normpath] over the components. *)
Definition norm_step (initial_slashes : nat) (new_comps : list str)
  (comp : str) : list str :=
  if str_eqb comp [] || str_eqb comp (lit ".") then new_comps
  else if negb (str_eqb comp (lit ".."))
          || (Nat.eqb initial_slashes 0 && is_nil new_comps)
          || (negb (is_nil new_comps)
              && str_eqb (last new_comps []) (lit ".."))
       then new_comps ++ [comp]
       else removelast new_comps.

(** [path.normpath(path)] *)
Definition normpath (path : str) : str :=
  if str_eqb path [] then lit "."
  else
    let initial_slashes :=
      if startswith path [slash] then
        if startswith path [slash; slash]
           && negb (startswith path [slash; slash; slash])
        then 2%nat else 1%nat
      else 0%nat in
    let comps := fold_left (norm_step initial_slashes) (split_on slash path) [] in
    let path' := repeat slash initial_slashes ++ join [slash] comps in
    if str_eqb path' [] then lit "." else path'.

(** ** argparse

    The parser of the script has optional arguments only: the help action
    argparse adds by itself and six actions that store one string.  What
    follows is [ArgumentParser.parse_args] of CPython 3.11 for such
    parsers. *)

Inductive action_class : Type :=
| HelpAction      (* nargs = 0: print the help and exit *)
| StoreAction.    (* nargs = None: store the one argument *)

Record Action : Type := mkAction {
  option_strings : list str;
  dest : str;
  default : option pyval;      (* [None] is argparse.SUPPRESS *)
  class : action_class
}.

Definition ArgumentParser := list Action.

(** [argparse.ArgumentParser(prog=..., description=...)] with the default
    [add_help=True]. *)
Definition new_parser : ArgumentParser :=
  [mkAction [lit "-h"; lit "--help"] (lit "help") None HelpAction].

(** [parser.add_argument(short, long, dest=dest, default=default)] *)
Definition add_argument (parser : ArgumentParser) (short long dest : str)
  (default : pyval) : ArgumentParser :=
  parser ++ [mkAction [short; long] dest (Some default) StoreAction].

Definition get_cli_args_parser : ArgumentParser :=
  let parser := new_parser in
  let parser := add_argument parser (lit "-b") (lit "--branch")
                  (lit "branch") (PyStr (lit "master")) in
  let parser := add_argument parser (lit "-t") (lit "--tracer-name")
                  (lit "tracer_name") (PyStr (lit "build-tracer")) in
  let parser := add_argument parser (lit "-m") (lit "--message")
                  (lit "message") (PyStr (lit "build-tracer")) in
  let parser := add_argument parser (lit "-n") (lit "--dry-run")
                  (lit "dry_run") PyFalse in
  let parser := add_argument parser (lit "-v") (lit "--verbose")
                  (lit "verbose") PyFalse in
  let parser := add_argument parser (lit "-C") (lit "--cwd")
                  (lit "cwd") (PyStr (lit ".")) in
  parser.

(** The parsed arguments: attribute names with their values. *)
Definition Namespace := list (str * pyval).

Fixpoint setattr (ns : Namespace) (name : str) (v : pyval) : Namespace :=
  match ns with
  | [] => [(name, v)]
  | (n, x) :: ns' =>
    if str_eqb n name then (n, v) :: ns' else (n, x) :: setattr ns' name v
  end.

Fixpoint getattr (ns : Namespace) (name : str) : option pyval :=
  match ns with
  | [] => None
  | (n, x) :: ns' => if str_eqb n name then Some x else getattr ns' name
  end.

(** [parser._option_string_actions], in insertion order. *)
Definition option_string_actions (parser : ArgumentParser)
  : list (str * Action) :=
  flat_map (fun a => map (fun o => (o, a)) (option_strings a)) parser.

Fixpoint lookup (o : str) (m : list (str * Action)) : option Action :=
  match m with
  | [] => None
  | (k, a) :: m' => if str_eqb k o then Some a else lookup o m'
  end.

Definition dash : char := ord "-".
Definition equals : char := ord "=".

(** [s.split(sep, 1)] for [sep] in [s]: the text before and after the first
    separator. *)
Fixpoint split_first (sep : char) (s : str) : str * str :=
  match s with
  | [] => ([], [])
  | c :: s' =>
    if N.eqb c sep then ([], s')
    else let (a, b) := split_first sep s' in (c :: a, b)
  end.

(** [\d] of the [re] module on [str]: the decimal digits of Unicode 14. *)
Definition digit_ranges : list (N * N) :=
  [(48, 57); (1632, 1641); (1776, 1785); (1984, 1993); (2406, 2415);
   (2534, 2543); (2662, 2671); (2790, 2799); (2918, 2927); (3046, 3055);
   (3174, 3183); (3302, 3311); (3430, 3439); (3558, 3567); (3664, 3673);
   (3792, 3801); (3872, 3881); (4160, 4169); (4240, 4249); (6112, 6121);
   (6160, 6169); (6470, 6479); (6608, 6617); (6784, 6793); (6800, 6809);
   (6992, 7001); (7088, 7097); (7232, 7241); (7248, 7257); (42528, 42537);
   (43216, 43225); (43264, 43273); (43472, 43481); (43504, 43513);
   (43600, 43609); (44016, 44025); (65296, 65305); (66720, 66729);
   (68912, 68921); (69734, 69743); (69872, 69881); (69942, 69951);
   (70096, 70105); (70384, 70393); (70736, 70745); (70864, 70873);
   (71248, 71257); (71360, 71369); (71472, 71481); (71904, 71913);
   (72016, 72025); (72784, 72793); (73040, 73049); (73120, 73129);
   (92768, 92777); (92864, 92873); (93008, 93017); (120782, 120831);
   (123200, 123209); (123632, 123641); (125264, 125273);
   (130032, 130041)]%N.

Definition is_digit (c : char) : bool :=
  existsb (fun r => in_range (fst r) (snd r) c) digit_ranges.

Fixpoint skip_digits (s : str) : str :=
  match s with
  | c :: s' => if is_digit c then skip_digits s' else s
  | [] => []
  end.

(** [$] of a pattern: the end of the text, or just before a final newline. *)
Definition at_dollar (s : str) : bool :=
  match s with
  | [] => true
  | [c] => N.eqb c 10
  | _ => false
  end.

(** One or more digits, then [$]. *)
Definition digits_to_end (s : str) : bool :=
  match s with
  | c :: _ => is_digit c && at_dollar (skip_digits s)
  | [] => false
  end.

(** [parser._negative_number_matcher.match(s)], the pattern being
    [^-\d+$|^-\d*\.\d+$]. *)
Definition negative_number (s : str) : bool :=
  match s with
  | c :: r =>
    N.eqb c dash
    && (digits_to_end r
        || match skip_digits r with
           | d :: r' => N.eqb d (ord ".") && digits_to_end r'
           | [] => false
           end)
  | [] => false
  end.

(** [parser._has_negative_number_optionals] as a truth value. *)
Definition has_negative_number_optionals (parser : ArgumentParser) : bool :=
  existsb (fun oa => negative_number (fst oa)) (option_string_actions parser).

(** [parser._get_option_tuples(option_string)]; [None] when it calls
    [self.error]. *)
Definition get_option_tuples (parser : ArgumentParser) (option_string : str)
  : option (list (Action * str * option str)) :=
  match option_string with
  | c0 :: c1 :: _ =>
    if N.eqb c0 dash && N.eqb c1 dash then
      let '(option_prefix, explicit_arg) :=
        if contains equals option_string
        then (fst (split_first equals option_string),
              Some (snd (split_first equals option_string)))
        else (option_string, None) in
      Some (flat_map
              (fun oa => if startswith (fst oa) option_prefix
                         then [(snd oa, fst oa, explicit_arg)] else [])
              (option_string_actions parser))
    else if N.eqb c0 dash && negb (N.eqb c1 dash) then
      let option_prefix := option_string in
      let short_option_prefix := firstn 2 option_string in
      let short_explicit_arg := skipn 2 option_string in
      Some (flat_map
              (fun oa => if str_eqb (fst oa) short_option_prefix
                         then [(snd oa, fst oa, Some short_explicit_arg)]
                         else if startswith (fst oa) option_prefix
                         then [(snd oa, fst oa, None)] else [])
              (option_string_actions parser))
    else None
  | _ => None
  end.

(** The result of [parser._parse_optional(arg_string)]. *)
Inductive optional_tuple : Type :=
| Positional                       (* returns None: pattern 'A' *)
| Optional (action : option Action) (option_string : str)
           (explicit_arg : option str)     (* pattern 'O' *)
| OptionalError.                   (* calls self.error *)

Definition parse_optional (parser : ArgumentParser) (arg_string : str)
  : optional_tuple :=
  match arg_string with
  | [] => Positional
  | c0 :: _ =>
    if negb (N.eqb c0 dash) then Positional
    else
      match lookup arg_string (option_string_actions parser) with
      | Some action => Optional (Some action) arg_string None
      | None =>
        if Nat.eqb (List.length arg_string) 1 then Positional
        else
          let before_equals :=
            if contains equals arg_string then
              let '(option_string, explicit_arg) :=
                split_first equals arg_string in
              match lookup option_string (option_string_actions parser) with
              | Some action =>
                Some (Optional (Some action) option_string (Some explicit_arg))
              | None => None
              end
            else None in
          match before_equals with
          | Some t => t
          | None =>
            match get_option_tuples parser arg_string with
            | None => OptionalError
            | Some (_ :: _ :: _) => OptionalError
            | Some [(action, option_string, explicit_arg)] =>
              Optional (Some action) option_string explicit_arg
            | Some [] =>
              if negative_number arg_string
                 && negb (has_negative_number_optionals parser)
              then Positional
              else if contains (ord " ") arg_string then Positional
              else Optional None arg_string None
            end
          end
      end
  end.

(** An argument string with its letter in [arg_strings_pattern]. *)
Inductive token : Type :=
| TokA (arg_string : str)                     (* 'A' *)
| TokDashes                                   (* '-': the string "--" *)
| TokO (arg_string : str) (action : option Action) (option_string : str)
       (explicit_arg : option str).           (* 'O' *)

(** The first loop of [_parse_known_args]: every string after the first
    [--] is an argument; [None] when [_parse_optional] reports an error. *)
Fixpoint classify (parser : ArgumentParser) (arg_strings : list str)
  : option (list token) :=
  match arg_strings with
  | [] => Some []
  | a :: rest =>
    if str_eqb a (lit "--") then Some (TokDashes :: map TokA rest)
    else
      match parse_optional parser a with
      | OptionalError => None
      | Positional => option_map (cons (TokA a)) (classify parser rest)
      | Optional action option_string explicit_arg =>
        option_map (cons (TokO a action option_string explicit_arg))
                   (classify parser rest)
      end
  end.

(** An entry of [action_tuples]: the action, its argument strings and the
    option string it was given by. *)
Definition action_tuple := (Action * list str * str)%type.

(** [match_argument(action, selected_patterns)] when there is no explicit
    argument: for an optional the pattern of [nargs=None] is [(A)], that of
    [nargs=0] is [()].  [following] is the next argument string when its
    letter is 'A'.  The result is the slice [args]; [None] is the
    ArgumentError. *)
Definition match_following (action : Action) (following : option str)
  : option (list str) :=
  match class action with
  | HelpAction => Some []
  | StoreAction =>
    match following with
    | Some a => Some [a]
    | None => None
    end
  end.

(** The loop of [consume_optional] from an explicit argument on: an action
    without arguments given by a single-dash option passes the rest of the
    string on to the next single-dash option.  The result is [action_tuples]
    and whether the following argument string was used; [None] is the
    ArgumentError. *)
Fixpoint consume_explicit (parser : ArgumentParser) (action : Action)
  (option_string explicit_arg : str) (following : option str)
  {struct explicit_arg} : option (list action_tuple * bool) :=
  match class action with
  | StoreAction => Some ([(action, [explicit_arg], option_string)], false)
  | HelpAction =>
    match option_string, explicit_arg with
    | c0 :: c1 :: _, c :: new_explicit_arg =>
      if negb (N.eqb c1 dash) then
        let option_string' := [c0; c] in
        match lookup option_string' (option_string_actions parser) with
        | Some action' =>
          option_map
            (fun r => ((action, [], option_string) :: fst r, snd r))
            match new_explicit_arg with
            | [] =>
              option_map
                (fun args => ([(action', args, option_string')],
                              negb (is_nil args)))
                (match_following action' following)
            | _ :: _ =>
              consume_explicit parser action' option_string'
                new_explicit_arg following
            end
        | None => None
        end
      else None
    | _, _ => None
    end
  end.

Definition consume_optional (parser : ArgumentParser) (action : Action)
  (option_string : str) (explicit_arg : option str) (following : option str)
  : option (list action_tuple * bool) :=
  match explicit_arg with
  | Some e => consume_explicit parser action option_string e following
  | None =>
    option_map
      (fun args => ([(action, args, option_string)], negb (is_nil args)))
      (match_following action following)
  end.

(** [l.remove(x)] when [x] is there, [l] otherwise. *)
Fixpoint remove_first (x : str) (l : list str) : list str :=
  match l with
  | [] => []
  | y :: l' => if str_eqb y x then l' else y :: remove_first x l'
  end.

(** [parser._get_values(action, arg_strings)] *)
Definition get_values (action : Action) (arg_strings : list str) : pyval :=
  let arg_strings := remove_first (lit "--") arg_strings in
  match class action, arg_strings with
  | StoreAction, [arg_string] => PyStr arg_string
  | _, _ => PyList arg_strings
  end.

(** [take_action] over [action_tuples] in order; [None] when the help action
    prints the help and exits. *)
Fixpoint take_actions (namespace : Namespace) (tuples : list action_tuple)
  : option Namespace :=
  match tuples with
  | [] => Some namespace
  | (action, args, _) :: tuples' =>
    match class action with
    | HelpAction => None
    | StoreAction =>
      take_actions (setattr namespace (dest action) (get_values action args))
                   tuples'
    end
  end.

Inductive parse_outcome : Type :=
| ParseOk (namespace : Namespace) (extras : list str)
| ParseError        (* parser.error: usage on stderr, exit status 2 *)
| ParseHelp.        (* help on stdout, exit status 0 *)

(** The second loop of [_parse_known_args] for a parser without positional
    arguments: strings that are no option and no argument of one are
    extras. *)
Fixpoint consume (parser : ArgumentParser) (tokens : list token)
  (namespace : Namespace) (extras : list str) : parse_outcome :=
  match tokens with
  | [] => ParseOk namespace extras
  | TokA a :: rest => consume parser rest namespace (extras ++ [a])
  | TokDashes :: rest => consume parser rest namespace (extras ++ [lit "--"])
  | TokO a None _ _ :: rest => consume parser rest namespace (extras ++ [a])
  | TokO _ (Some action) option_string explicit_arg :: rest =>
    let following := match rest with TokA a :: _ => Some a | _ => None end in
    match consume_optional parser action option_string explicit_arg
                           following with
    | None => ParseError
    | Some (tuples, used_following) =>
      match take_actions namespace tuples with
      | None => ParseHelp
      | Some namespace' =>
        if used_following then
          match rest with
          | _ :: rest' => consume parser rest' namespace' extras
          | [] => ParseOk namespace' extras
          end
        else consume parser rest namespace' extras
      end
    end
  end.

(** The namespace built from the defaults of the actions. *)
Definition default_namespace (parser : ArgumentParser) : Namespace :=
  fold_left
    (fun ns action =>
       match default action, getattr ns (dest action) with
       | Some v, None => setattr ns (dest action) v
       | _, _ => ns
       end)
    parser [].

(** [parser.parse_known_args(args)] *)
Definition parse_known_args (parser : ArgumentParser) (args : list str)
  : parse_outcome :=
  match classify parser args with
  | None => ParseError
  | Some tokens => consume parser tokens (default_namespace parser) []
  end.

(** [parser.parse_args(args)] *)
Definition parse_args (parser : ArgumentParser) (args : list str)
  : M Namespace :=
  match parse_known_args parser args with
  | ParseOk namespace [] => ret namespace
  | ParseOk _ (_ :: _) => (emit EvUsage ;; sys_exit 2)
  | ParseError => (emit EvUsage ;; sys_exit 2)
  | ParseHelp => (emit EvHelp ;; sys_exit 0)
  end.

Section Script.

Variable w : World.

(** ** os and subprocess *)

(** [os.getcwd()], in a working directory that exists (where it was
    removed the call fails; the statements that depend on it assume
    [canonical_cwd]). *)
Definition os_getcwd : M str := fun s => Ret (cwd s) s.

(** [os.chdir(p)] *)
Definition os_chdir (p : str) : M unit :=
  fun s =>
    match w_resolve w (path_join (cwd s) p) with
    | Some d => Ret tt (mkOS d (log s))
    | None => Raise OSError s
    end.

(** [path.abspath(p)] *)
Definition path_abspath (p : str) : M str :=
  if isabs p then ret (normpath p)
  else (c <- os_getcwd ;; ret (normpath (path_join c p))).

Record CompletedProcess : Type := mkCompleted {
  returncode : Z;
  stdout : bytes
}.

(** [subprocess.run(cmd, shell=True, check=True, stdout=subprocess.PIPE,
    timeout=10)] *)
Definition subprocess_run (cmd : str) : M CompletedProcess :=
  fun s =>
    let s' := mkOS (cwd s) (log s ++ [EvExec (cwd s) cmd]) in
    match w_spawn w (execs_of (log s)) (cwd s) cmd with
    | Exited rc out =>
      if rc =? 0 then Ret (mkCompleted rc out) s'
      else Raise (CalledProcessError rc out) s'
    | TimedOut out => Raise (TimeoutExpired out) s'
    | SpawnFailed => Raise OSError s'
    end.

(** ** The script *)

Definition change_working_directory (cwd : str) (dry_run verbose : bool)
  : M unit :=
  (if dry_run || verbose then print [lit "cd " ++ cwd] else ret tt) ;;
  if negb dry_run then os_chdir cwd else ret tt.

(** The [cmd] argument of [run_command]: a string or a list of tokens. *)
Inductive command : Type :=
| CmdStr (s : str)
| CmdList (tokens : list str).

Definition run_command (cmd : command) (dry_run verbose : bool)
  : M (Z * str) :=
  let cmd := match cmd with
             | CmdList tokens => join (lit " ") tokens
             | CmdStr s => s
             end in
  (if dry_run || verbose then print [cmd] else ret tt) ;;
  if negb dry_run then
    try_except
      (process <- subprocess_run cmd ;;
       let return_code := returncode process in
       stdout <- bytes_decode (stdout process) ;;
       ret (return_code, stdout))
      (fun ex =>
         match ex with
         | TimeoutExpired ex_stdout =>
           t <- match ex_stdout with
                | Some b => bytes_decode b
                | None => raise AttributeError
                end ;;
           ret (-1, t)
         | CalledProcessError ex_returncode ex_stdout =>
           t <- bytes_decode ex_stdout ;;
           ret (ex_returncode, t)
         | _ => if is_Exception ex then ret (-1, []) else raise ex
         end)
  else ret (0, []).

Definition list_branch_cmd (branch_name : str) : str :=
  lit "git branch --list " ++ branch_name.

Definition create_branch_cmd (branch_name : str) : str :=
  lit "git branch " ++ branch_name.

Definition create_tracer_branch (branch_name : str) (dry_run verbose : bool)
  : M unit :=
  '(ret_, tracer_branch) <-
     run_command (CmdStr (list_branch_cmd branch_name)) false false ;;
  (if negb (ret_ =? 0) then eprint [lit "command failed: "; tracer_branch]
   else ret tt) ;;
  if str_eqb (strip tracer_branch) [] then
    (if verbose then print [lit "create branch: "; tracer_branch]
     else ret tt) ;;
    '(ret_, output) <-
       run_command (CmdStr (create_branch_cmd branch_name)) dry_run verbose ;;
    if negb (ret_ =? 0) then eprint [lit "command failed: "; output]
    else ret tt
  else ret tt.



(** [namespace.name] *)
Definition attr (namespace : Namespace) (name : str) : M pyval :=
  match getattr namespace name with
  | Some v => ret v
  | None => raise AttributeError
  end.

Definition git_version_cmd : str := lit "git --version".
Definition work_tree_cmd : str := lit "git rev-parse --is-inside-work-tree".
Definition head_cmd : str := lit "git rev-parse HEAD".

(** The steps of the [try] block of [main], named after its comments. *)

(** [# parse arguments] *)
Definition parse_arguments : M Namespace :=
  let parser := get_cli_args_parser in
  args <- parse_args parser (w_argv w) ;;
  args_cwd <- attr args (lit "cwd") ;;
  p <- match args_cwd with
       | PyStr p => path_abspath p
       | _ => raise TypeError
       end ;;
  os_chdir p ;;
  ret args.

(** [# check if git in installed] *)
Definition check_git_installed (args : Namespace) : M unit :=
  '(ret_, git_version) <- run_command (CmdStr git_version_cmd) false false ;;
  (if negb (ret_ =? 0)
   then (eprint [lit "git is not installed."] ;; sys_exit 1)
   else ret tt) ;;
  args_verbose <- attr args (lit "verbose") ;;
  if truthy args_verbose then print [lit "find git: "; git_version]
  else ret tt.

(** [# check if arg is a valid git repo] *)
Definition check_valid_repo : M unit :=
  '(ret_, git_repo) <- run_command (CmdStr work_tree_cmd) false false ;;
  if negb (ret_ =? 0) && negb (str_eqb (strip git_repo) (lit "true"))
  then (eprint [lit "not a valid git repo."] ;; sys_exit 1)
  else ret tt.

(** [# get the base commit-id] *)
Definition get_base_commit : M unit :=
  '(ret_, base_commit) <- run_command (CmdStr head_cmd) false false ;;
  if negb (ret_ =? 0)
  then (eprint [lit "failed to get base commit-id."] ;; sys_exit 1)
  else ret tt.

Definition main : M unit :=
  cwd <- os_getcwd ;;
  cwd <- path_abspath cwd ;;
  try_finally
    (args <- parse_arguments ;;
     check_git_installed args ;;
     check_valid_repo ;;
     get_base_commit)
    (os_chdir cwd).

End Script.

(** * Vocabulary of the statements *)

(** The text of the [cmd] argument of the runner. *)
Definition command_text (cmd : command) : str :=
  match cmd with
  | CmdList tokens => join (lit " ") tokens
  | CmdStr s => s
  end.

(** The line end [print] adds. *)
Definition newline : str := lit (String "010" EmptyString).

(** What one call of the runner leaves in the log: the echo when dry-run
    or verbose is set, the execution when dry-run is not. *)
Definition run_footprint (dir : str) (cmd : command) (dry_run verbose : bool)
  : list event :=
  (if dry_run || verbose then [EvStdout (command_text cmd ++ newline)]
   else [])
  ++ (if dry_run then [] else [EvExec dir (command_text cmd)]).

(** [issues m cs]: from any state, [m] leaves the working directory alone
    and runs, in order and in that directory, a prefix of the commands
    [cs], all of them when it returns. *)
Definition issues {A} (m : M A) (cs : list str) : Prop :=
  forall s,
    cwd (state_of (m s)) = cwd s
    /\ exists k,
         (k <= List.length cs)%nat
         /\ execs_of (log (state_of (m s)))
            = execs_of (log s) ++ map (pair (cwd s)) (firstn k cs)
         /\ (forall a s', m s = Ret a s' -> k = List.length cs).

(** The three queries of [main], in order. *)
Definition preflight_cmds : list str :=
  [git_version_cmd; work_tree_cmd; head_cmd].

(** The three checks of [main] once the arguments are parsed. *)
Definition preflight (w : World) (args : Namespace) : M unit :=
  check_git_installed w args ;; check_valid_repo w ;; get_base_commit w.

(** The directory [main] saves before the [try] block. *)
Definition saved_cwd (s : OS) : str :=
  if isabs (cwd s) then normpath (cwd s)
  else normpath (path_join (cwd s) (cwd s)).

(** The working directory of a process is an absolute, normalized path of
    an existing directory. *)
Definition canonical_cwd (w : World) (s : OS) : Prop :=
  isabs (cwd s) = true
  /\ normpath (cwd s) = cwd s
  /\ w_resolve w (cwd s) = Some (cwd s).

(** [main] ends in the fatal branch of the repository check: exit status 1
    with the diagnostic of that check as the last thing done after the
    work-tree query (which left the state [s3]). *)
Definition fatal_at_repo_check (r : result unit) (s3 : OS) : Prop :=
  exit_status r = 1
  /\ log (state_of r)
     = log s3 ++ [EvStderr (lit "not a valid git repo." ++ newline)].

(** What a call without dry-run returns, from the outcome of the
    subprocess. *)
Definition real_result (o : proc_outcome) : (Z * str) + exn :=
  match o with
  | Exited rc out =>
    match decode out with
    | Some t => inl (rc, t)
    | None => if rc =? 0 then inl (-1, []) else inr UnicodeDecodeError
    end
  | TimedOut (Some out) =>
    match decode out with
    | Some t => inl (-1, t)
    | None => inr UnicodeDecodeError
    end
  | TimedOut None => inr AttributeError
  | SpawnFailed => inl (-1, [])
  end.

(** [m] only adds to the log. *)
Definition extends {A} (m : M A) : Prop :=
  forall s, exists l, log (state_of (m s)) = log s ++ l.

(** The diagnostic for a non-zero code, on stderr. *)
Definition diagnostic (ret_ : Z) (output : str) : list event :=
  if negb (ret_ =? 0)
  then [EvStderr (join (lit " ") [lit "command failed: "; output] ++ newline)]
  else [].

(** The line printed before the creation in verbose mode. *)
Definition announce (verbose : bool) (tracer_branch : str) : list event :=
  if verbose
  then [EvStdout (join (lit " ") [lit "create branch: "; tracer_branch]
                  ++ newline)]
  else [].

(** How many times a stretch of the log shows [cmd] handed to the runner
    with the given dry-run flag: its executions when the flag is off, its
    echoes when the flag is on. *)
Definition invocations (cmd : str) (dry_run : bool) (l : list event) : nat :=
  List.length
    (filter (fun e =>
               match e with
               | EvExec _ c => negb dry_run && str_eqb c cmd
               | EvStdout t => dry_run && str_eqb t (cmd ++ newline)
               | _ => false
               end) l).

(** The spellings of the two options, with the attribute they set. *)
Definition value_flags : list (str * str) :=
  [(lit "-n", lit "dry_run"); (lit "--dry-run", lit "dry_run");
   (lit "-v", lit "verbose"); (lit "--verbose", lit "verbose")].

(** What a computation gives back, apart from the state it leaves. *)
Definition outcome {A} (r : result A) : A + exn :=
  match r with
  | Ret a _ => inl a
  | Raise e _ => inr e
  end.

(** The directory [main] asks [os.chdir] for when the option [cwd] holds
    the string [p]: [path.abspath(p)] in the process state [s]. *)
Definition target_dir (s : OS) (p : str) : str :=
  if isabs p then normpath p else normpath (path_join (cwd s) p).

(** The number of slashes [normpath] keeps in front of the result. *)
Definition initial_slashes_of (path : str) : nat :=
  if startswith path [slash] then
    if startswith path [slash; slash]
       && negb (startswith path [slash; slash; slash])
    then 2%nat else 1%nat
  else 0%nat.

(** The six options of the script: short spelling, long spelling and the
    attribute they set. *)
Definition option_table : list (str * str * str) :=
  [(lit "-b", lit "--branch", lit "branch");
   (lit "-t", lit "--tracer-name", lit "tracer_name");
   (lit "-m", lit "--message", lit "message");
   (lit "-n", lit "--dry-run", lit "dry_run");
   (lit "-v", lit "--verbose", lit "verbose");
   (lit "-C", lit "--cwd", lit "cwd")].

(** Every spelling with its attribute. *)
Definition option_flags : list (str * str) :=
  flat_map (fun e => [(fst (fst e), snd e); (snd (fst e), snd e)])
           option_table.

(** The attributes of the parsed arguments. *)
Definition attributes : list str := map snd option_table.

(** [m] writes nothing to stdout. *)
Definition silent {A} (m : M A) : Prop :=
  forall s, stdout_of (log (state_of (m s))) = stdout_of (log s).

(** The line [main] prints in verbose mode, from the result of the version
    query: nothing unless the query returned code 0. *)
Definition version_line (r : result (Z * str)) : list str :=
  match r with
  | Ret (ret_, git_version) _ =>
    if ret_ =? 0
    then [join (lit " ") [lit "find git: "; git_version] ++ newline]
    else []
  | Raise _ _ => []
  end.




(** * Environments of concrete runs *)

(** A repository where git answers every query of the script. *)
Definition git_answers (cmd : str) : proc_outcome :=
  if str_eqb cmd git_version_cmd
  then Exited 0 (list_byte_of_string "git version 2.39.2
")
  else if str_eqb cmd work_tree_cmd
  then Exited 0 (list_byte_of_string "true
")
  else if str_eqb cmd head_cmd
  then Exited 0 (list_byte_of_string "8f3a1c2e9d4b5a60718293a4b5c6d7e8f9012345
")
  else Exited 0 [].

(** The directory the process starts in. *)
Definition home : str := lit "/home/dev/project".

(** Every directory exists; git is installed and [home] is a work tree with
    a commit. *)
Definition world_ok (argv : list str) : World :=
  mkWorld argv (fun p => Some p) (fun _ _ cmd => git_answers cmd).

(** The process before [main]. *)
Definition start : OS := mkOS home [].

(** A machine without git: the shell reports status 127 for every
    command. *)
Definition world_no_git : World :=
  mkWorld [] (fun p => Some p) (fun _ _ _ => Exited 127 []).

(** A directory inside a repository without any commit: HEAD does not
    resolve (git prints the word HEAD and fails with status 128). *)
Definition world_unborn : World :=
  mkWorld [] (fun p => Some p)
    (fun _ _ cmd =>
       if str_eqb cmd head_cmd
       then Exited 128 (list_byte_of_string "HEAD
")
       else git_answers cmd).

(** Outside a repository git answers the work-tree query with status 128
    and nothing on stdout. *)
Definition world_no_repo : World :=
  mkWorld [] (fun p => Some p)
    (fun _ _ cmd =>
       if str_eqb cmd work_tree_cmd then Exited 128 [] else git_answers cmd).

(** A command that writes nothing and does not end within ten seconds. *)
Definition world_hang : World :=
  mkWorld [] (fun p => Some p) (fun _ _ _ => TimedOut None).

(** A command stopped by the timeout in the middle of a multi-byte
    character (the first two bytes of the euro sign). *)
Definition world_cut : World :=
  mkWorld [] (fun p => Some p)
    (fun _ _ _ => TimedOut (Some [Byte.xe2; Byte.x82])).

(** A command that writes one byte that is not UTF-8 and fails. *)
Definition world_latin1 : World :=
  mkWorld [] (fun p => Some p) (fun _ _ _ => Exited 1 [Byte.xff]).

(** A command line that asks for a dry run, and what it parses to. *)
Definition argv_dry : list str := [lit "--dry-run"; lit "true"].

Definition args_dry : Namespace :=
  setattr (default_namespace get_cli_args_parser) (lit "dry_run")
          (PyStr (lit "true")).

(** The list query finds no branch; the create command writes nothing and
    does not end within ten seconds. *)
Definition world_create_hangs : World :=
  mkWorld [] (fun p => Some p)
    (fun _ _ cmd =>
       if str_eqb cmd (lit "git branch build-tracer") then TimedOut None
       else Exited 0 []).

(** * Properties *)

(** ** Text *)

Lemma str_eqb_spec (a b : str) : reflect (a = b) (str_eqb a b).
Proof.
  revert b; induction a as [|x a IH]; intros [|y b]; simpl;
    try (constructor; congruence).
  destruct (N.eqb_spec x y) as [->|Hxy]; simpl.
  - destruct (IH b) as [->|Hab]; constructor; congruence.
  - constructor; congruence.
Qed.

Lemma str_eqb_refl (a : str) : str_eqb a a = true.
Proof. destruct (str_eqb_spec a a); congruence. Qed.

Lemma str_eqb_eq (a b : str) : str_eqb a b = true <-> a = b.
Proof. destruct (str_eqb_spec a b); split; congruence. Qed.

Lemma execs_of_app (l1 l2 : list event) :
  execs_of (l1 ++ l2) = execs_of l1 ++ execs_of l2.
Proof. apply flat_map_app. Qed.

Lemma stderr_of_app (l1 l2 : list event) :
  stderr_of (l1 ++ l2) = stderr_of l1 ++ stderr_of l2.
Proof. apply flat_map_app. Qed.

Lemma stdout_of_app (l1 l2 : list event) :
  stdout_of (l1 ++ l2) = stdout_of l1 ++ stdout_of l2.
Proof. apply flat_map_app. Qed.

(** ** The command runner *)

Lemma run_command_dry (w : World) (cmd : command) (verbose : bool) (s : OS) :
  run_command w cmd true verbose s
  = Ret (0, []) (mkOS (cwd s) (log s ++ run_footprint (cwd s) cmd true verbose)).
Proof.
  unfold run_command, run_footprint, bind, print, emit, ret; simpl.
  reflexivity.
Qed.

(** Whatever its outcome, a call of the runner leaves the working directory
    alone and adds its footprint to the log. *)
Lemma run_command_state (w : World) (cmd : command) (dry_run verbose : bool)
  (s : OS) :
  cwd (state_of (run_command w cmd dry_run verbose s)) = cwd s
  /\ log (state_of (run_command w cmd dry_run verbose s))
     = log s ++ run_footprint (cwd s) cmd dry_run verbose.
Proof.
  destruct dry_run.
  - rewrite run_command_dry. simpl. auto.
  - unfold run_command, run_footprint, command_text.
    set (text := match cmd with CmdList t => join (lit " ") t | CmdStr c => c end).
    unfold bind, try_except, subprocess_run, bytes_decode, print, emit, ret,
      raise.
    destruct verbose; simpl;
      match goal with
      | |- context [w_spawn w ?h ?d ?c] => destruct (w_spawn w h d c) as [rc out|[out|]|]
      end; simpl;
      try (destruct (rc =? 0)); simpl;
      try (destruct (decode out)); simpl;
      rewrite <- ?app_assoc; auto.
Qed.

(** ** Which commands a computation runs *)

Lemma issues_quiet {A} (m : M A) :
  (forall s, cwd (state_of (m s)) = cwd s
             /\ execs_of (log (state_of (m s))) = execs_of (log s)) ->
  issues m [].
Proof.
  intros H s. destruct (H s) as [Hc Hl]. split; [exact Hc|].
  exists 0%nat. simpl. rewrite app_nil_r. auto.
Qed.

Lemma issues_ret {A} (a : A) : issues (ret a) [].
Proof. apply issues_quiet. intros s. simpl. auto. Qed.

Lemma issues_raise {A} (e : exn) : issues (@raise A e) [].
Proof. apply issues_quiet. intros s. simpl. auto. Qed.

Lemma issues_sys_exit {A} (c : Z) : issues (@sys_exit A c) [].
Proof. apply issues_raise. Qed.

Lemma issues_print (args : list str) : issues (print args) [].
Proof.
  apply issues_quiet. intros s. unfold print, emit. simpl.
  rewrite execs_of_app. simpl. rewrite app_nil_r. auto.
Qed.

Lemma issues_eprint (args : list str) : issues (eprint args) [].
Proof.
  apply issues_quiet. intros s. unfold eprint, emit. simpl.
  rewrite execs_of_app. simpl. rewrite app_nil_r. auto.
Qed.

Lemma issues_attr (ns : Namespace) (name : str) : issues (attr ns name) [].
Proof.
  unfold attr. destruct (getattr ns name);
    [apply issues_ret | apply issues_raise].
Qed.

Lemma issues_bind {A B} (m : M A) (k : A -> M B) (cs1 cs2 : list str) :
  issues m cs1 -> (forall a, issues (k a) cs2) ->
  issues (bind m k) (cs1 ++ cs2).
Proof.
  intros Hm Hk s. unfold bind.
  destruct (Hm s) as [Hc (n & Hn & Hl & Hr)].
  destruct (m s) as [a s1|e s1] eqn:Hms; simpl in *.
  - specialize (Hr a s1 eq_refl). subst n.
    destruct (Hk a s1) as [Hc2 (n2 & Hn2 & Hl2 & Hr2)].
    split; [congruence|].
    exists (List.length cs1 + n2)%nat. split; [rewrite length_app; lia|].
    split.
    + rewrite Hl2, Hl, Hc, firstn_app_2, map_app, firstn_all, app_assoc.
      reflexivity.
    + intros b s' Hb. rewrite (Hr2 b s' Hb), length_app. reflexivity.
  - split; [exact Hc|]. exists n. split; [rewrite length_app; lia|].
    split; [|discriminate].
    rewrite Hl, firstn_app.
    replace (n - List.length cs1)%nat with 0%nat by lia.
    simpl. rewrite app_nil_r. reflexivity.
Qed.

Lemma issues_run_command (w : World) (cmd : command) (dry_run verbose : bool) :
  issues (run_command w cmd dry_run verbose)
         (if dry_run then [] else [command_text cmd]).
Proof.
  intros s.
  destruct (run_command_state w cmd dry_run verbose s) as [Hc Hl].
  split; [exact Hc|].
  exists (List.length (if dry_run then [] else [command_text cmd])).
  split; [lia|]. split; [|reflexivity].
  rewrite Hl, execs_of_app, firstn_all. unfold run_footprint.
  rewrite execs_of_app.
  destruct dry_run, verbose; reflexivity.
Qed.

Lemma issues_real (w : World) (c : str) :
  issues (run_command w (CmdStr c) false false) [c].
Proof. exact (issues_run_command w (CmdStr c) false false). Qed.

Create HintDb issues.

#[local] Hint Resolve issues_ret issues_raise issues_sys_exit issues_print
  issues_eprint issues_attr issues_real : issues.

(** Splitting the command list of a sequence whose first part runs
    [cs1] and whose second part runs nothing or the rest. *)
Ltac issues_step cs1 cs2 :=
  apply (issues_bind _ _ cs1 cs2); [auto with issues | intros].

Lemma issues_check_git_installed (w : World) (args : Namespace) :
  issues (check_git_installed w args) [git_version_cmd].
Proof.
  unfold check_git_installed.
  issues_step [git_version_cmd] (@nil str). destruct a as [ret_ git_version].
  issues_step (@nil str) (@nil str).
  { destruct (negb (ret_ =? 0)); auto with issues.
    issues_step (@nil str) (@nil str). auto with issues. }
  issues_step (@nil str) (@nil str).
  destruct (truthy _); auto with issues.
Qed.

Lemma issues_check_valid_repo (w : World) :
  issues (check_valid_repo w) [work_tree_cmd].
Proof.
  unfold check_valid_repo.
  issues_step [work_tree_cmd] (@nil str). destruct a as [ret_ git_repo].
  destruct (_ && _); auto with issues.
  issues_step (@nil str) (@nil str). auto with issues.
Qed.

Lemma issues_get_base_commit (w : World) :
  issues (get_base_commit w) [head_cmd].
Proof.
  unfold get_base_commit.
  issues_step [head_cmd] (@nil str). destruct a as [ret_ base_commit].
  destruct (negb _); auto with issues.
  issues_step (@nil str) (@nil str). auto with issues.
Qed.

Lemma issues_preflight (w : World) (args : Namespace) :
  issues (preflight w args) preflight_cmds.
Proof.
  unfold preflight.
  apply (issues_bind _ _ [git_version_cmd] [work_tree_cmd; head_cmd]);
    [apply issues_check_git_installed | intros _].
  apply (issues_bind _ _ [work_tree_cmd] [head_cmd]);
    [apply issues_check_valid_repo | intros _].
  apply issues_get_base_commit.
Qed.

(** ** The frame of [main] *)

Lemma os_chdir_log (w : World) (p : str) (s : OS) :
  log (state_of (os_chdir w p s)) = log s.
Proof. unfold os_chdir. destruct (w_resolve w _); reflexivity. Qed.

Lemma try_finally_chdir_log {A} (w : World) (body : M A) (p : str) (s : OS) :
  log (state_of (try_finally body (os_chdir w p) s)) = log (state_of (body s)).
Proof.
  unfold try_finally.
  destruct (body s) as [a s1|e s1]; simpl;
    rewrite <- (os_chdir_log w p s1);
    destruct (os_chdir w p s1); reflexivity.
Qed.

(** An exit status 1 of the body survives the cleanup: when the cleanup
    itself fails, the uncaught OSError ends the process with status 1 as
    well. *)
Lemma try_finally_chdir_exit_1 {A} (w : World) (body : M A) (p : str) (s : OS) :
  exit_status (body s) = 1 ->
  exit_status (try_finally body (os_chdir w p) s) = 1.
Proof.
  unfold try_finally, os_chdir.
  destruct (body s) as [a s1|e s1]; simpl; [discriminate|].
  intros He. destruct (w_resolve w _); simpl; [exact He | reflexivity].
Qed.


Lemma main_unfold (w : World) (s : OS) :
  main w s
  = try_finally (args <- parse_arguments w ;; preflight w args)
                (os_chdir w (saved_cwd s)) s.
Proof.
  unfold main, saved_cwd, path_abspath, os_getcwd, bind at 1 2.
  destruct (isabs (cwd s)); reflexivity.
Qed.

(** Parsing the arguments runs no command. *)
Lemma parse_args_state (parser : ArgumentParser) (args : list str) (s : OS) :
  cwd (state_of (parse_args parser args s)) = cwd s
  /\ execs_of (log (state_of (parse_args parser args s))) = execs_of (log s).
Proof.
  unfold parse_args.
  destruct (parse_known_args parser args) as [ns [|x extras]| |]; simpl;
    rewrite ?execs_of_app, ?app_nil_r; auto.
Qed.

Lemma parse_args_ret (parser : ArgumentParser) (args : list str) (s s' : OS)
  (ns : Namespace) :
  parse_args parser args s = Ret ns s' ->
  s' = s /\ parse_known_args parser args = ParseOk ns [].
Proof.
  unfold parse_args.
  destruct (parse_known_args parser args) as [ns' [|x extras]| |];
    simpl; try discriminate.
  unfold ret. intros H. inversion H. auto.
Qed.

Lemma parse_arguments_execs (w : World) (s : OS) :
  execs_of (log (state_of (parse_arguments w s))) = execs_of (log s).
Proof.
  unfold parse_arguments, bind.
  destruct (parse_args_state get_cli_args_parser (w_argv w) s) as [_ Hl].
  destruct (parse_args _ _ s) as [args s1|e s1]; simpl in *; [|exact Hl].
  unfold attr. destruct (getattr args _) as [[|p|l]|]; simpl; try exact Hl.
  unfold path_abspath, bind, os_getcwd, ret.
  destruct (isabs p); simpl;
    match goal with
    | |- context [os_chdir w ?q s1] =>
      pose proof (os_chdir_log w q s1) as Hq; destruct (os_chdir w q s1)
    end; simpl in *; congruence.
Qed.

(** ** C4: [main] never reaches the branch ensurer *)

Lemma branch_cmds_not_preflight (name : str) :
  ~ In (list_branch_cmd name) preflight_cmds
  /\ ~ In (create_branch_cmd name) preflight_cmds.
Proof.
  split; intros H; cbv in H;
    repeat (destruct H as [H|H]; [discriminate H|]); exact H.
Qed.

(** C4.  A run of [main] executes a prefix of the three preflight commands
    (version query, work-tree query, HEAD resolution), all in the directory
    it entered, and nothing else; none of the three is a branch-list or a
    branch-create command, so the branch ensurer is never reached. *)
Theorem main_issues_only_preflight (w : World) (s : OS) :
  (exists d k,
      (k <= 3)%nat
      /\ execs_of (log (state_of (main w s)))
         = execs_of (log s) ++ map (pair d) (firstn k preflight_cmds))
  /\ (forall name,
         ~ In (list_branch_cmd name) preflight_cmds
         /\ ~ In (create_branch_cmd name) preflight_cmds).
Proof.
  split; [|exact branch_cmds_not_preflight].
  rewrite main_unfold, try_finally_chdir_log. unfold bind.
  pose proof (parse_arguments_execs w s) as Hp.
  destruct (parse_arguments w s) as [args s1|e s1]; simpl in *.
  - destruct (issues_preflight w args s1) as [_ (k & Hk & Hl & _)].
    exists (cwd s1), k. split; [exact Hk|]. rewrite Hl, Hp. reflexivity.
  - exists [], 0%nat. split; [lia|]. simpl. rewrite app_nil_r. exact Hp.
Qed.

(** ** C3: the working directory is restored *)

Lemma path_join_abs (a b : str) : isabs b = true -> path_join a b = b.
Proof. unfold isabs, path_join. intros ->. reflexivity. Qed.

Lemma try_finally_chdir_cwd {A} (w : World) (body : M A) (p : str) (s : OS) :
  isabs p = true -> w_resolve w p = Some p ->
  cwd (state_of (try_finally body (os_chdir w p) s)) = p.
Proof.
  intros Ha Hr. unfold try_finally, os_chdir.
  destruct (body s) as [a s1|e s1]; rewrite (path_join_abs _ _ Ha), Hr;
    reflexivity.
Qed.

(** C3.  From a process whose working directory is an existing directory
    in canonical form, every run of [main], however the [try] block ends
    (return, [sys.exit(1)], an exit of argparse, any other exception), ends
    in the directory it started in. *)
Theorem main_restores_cwd (w : World) (s : OS) :
  canonical_cwd w s ->
  cwd (state_of (main w s)) = cwd s.
Proof.
  intros (Ha & Hn & Hr). rewrite main_unfold.
  unfold saved_cwd. rewrite Ha, Hn.
  apply try_finally_chdir_cwd; assumption.
Qed.

Lemma main_restores_cwd_witness :
  canonical_cwd (world_ok [lit "-C"; lit "/tmp"]) start
  /\ cwd (state_of (main (world_ok [lit "-C"; lit "/tmp"]) start)) = home.
Proof.
  assert (H : canonical_cwd (world_ok [lit "-C"; lit "/tmp"]) start)
    by (repeat split; vm_compute; reflexivity).
  split; [exact H|].
  exact (main_restores_cwd (world_ok [lit "-C"; lit "/tmp"]) start H).
Defined.

(** ** The preflight checks of [main] *)

Lemma main_after_parse (w : World) (s s1 : OS) (args : Namespace) :
  parse_arguments w s = Ret args s1 ->
  main w s = try_finally (fun _ => preflight w args s1)
                         (os_chdir w (saved_cwd s)) s.
Proof.
  intros Hp. rewrite main_unfold. unfold try_finally, bind. rewrite Hp.
  reflexivity.
Qed.

Lemma check_git_installed_fatal (w : World) (args : Namespace) (s1 s2 : OS)
  (ret_ : Z) (git_version : str) :
  run_command w (CmdStr git_version_cmd) false false s1
  = Ret (ret_, git_version) s2 ->
  ret_ <> 0 ->
  check_git_installed w args s1
  = Raise (SystemExit 1)
      (mkOS (cwd s2)
            (log s2 ++ [EvStderr (lit "git is not installed." ++ newline)])).
Proof.
  intros Hr Hne. unfold check_git_installed, bind. rewrite Hr.
  apply Z.eqb_neq in Hne. rewrite Hne. reflexivity.
Qed.

Lemma get_base_commit_fatal (w : World) (s3 s4 : OS) (ret_ : Z)
  (base_commit : str) :
  run_command w (CmdStr head_cmd) false false s3
  = Ret (ret_, base_commit) s4 ->
  ret_ <> 0 ->
  get_base_commit w s3
  = Raise (SystemExit 1)
      (mkOS (cwd s4)
            (log s4
             ++ [EvStderr (lit "failed to get base commit-id." ++ newline)])).
Proof.
  intros Hr Hne. unfold get_base_commit, bind. rewrite Hr.
  apply Z.eqb_neq in Hne. rewrite Hne. reflexivity.
Qed.

(** The HEAD query is the first thing [get_base_commit] does. *)
Lemma get_base_commit_log (w : World) (s3 : OS) :
  exists l,
    log (state_of (get_base_commit w s3))
    = log s3 ++ EvExec (cwd s3) head_cmd :: l.
Proof.
  unfold get_base_commit, bind.
  destruct (run_command_state w (CmdStr head_cmd) false false s3) as [_ Hl].
  destruct (run_command w (CmdStr head_cmd) false false s3)
    as [[ret_ base_commit] s4|e s4]; simpl in *.
  - destruct (negb (ret_ =? 0)); simpl; rewrite Hl, <- ?app_assoc;
      eexists; reflexivity.
  - rewrite Hl. eexists; reflexivity.
Qed.

(** The outcome of the repository check from what the runner returned. *)
Lemma check_valid_repo_run (w : World) (s2 s3 : OS) (ret_ : Z)
  (git_repo : str) :
  run_command w (CmdStr work_tree_cmd) false false s2
  = Ret (ret_, git_repo) s3 ->
  check_valid_repo w s2
  = if negb (ret_ =? 0) && negb (str_eqb (strip git_repo) (lit "true"))
    then Raise (SystemExit 1)
           (mkOS (cwd s3)
                 (log s3 ++ [EvStderr (lit "not a valid git repo." ++ newline)]))
    else Ret tt s3.
Proof.
  intros Hr. unfold check_valid_repo, bind. rewrite Hr.
  destruct (_ && _); reflexivity.
Qed.

Lemma fatal_condition (ret_ : Z) (git_repo : str) :
  negb (ret_ =? 0) && negb (str_eqb (strip git_repo) (lit "true")) = true
  <-> ret_ <> 0 /\ strip git_repo <> lit "true".
Proof.
  rewrite andb_true_iff, !negb_true_iff, Z.eqb_neq.
  destruct (str_eqb_spec (strip git_repo) (lit "true")); intuition congruence.
Qed.

(** ** C5: a failed version query ends the run *)

(** C5.  When the arguments are parsed and the runner returns a non-zero
    code for the version query, [main] ends with exit status 1 after the
    diagnostic, and the version query is the only command it has run: the
    repository check is not attempted. *)
Theorem git_missing_stops_main (w : World) (s s1 s2 : OS) (args : Namespace)
  (ret_ : Z) (git_version : str) :
  parse_arguments w s = Ret args s1 ->
  run_command w (CmdStr git_version_cmd) false false s1
  = Ret (ret_, git_version) s2 ->
  ret_ <> 0 ->
  exit_status (main w s) = 1
  /\ log (state_of (main w s))
     = log s2 ++ [EvStderr (lit "git is not installed." ++ newline)]
  /\ execs_of (log (state_of (main w s)))
     = execs_of (log s) ++ [(cwd s1, git_version_cmd)].
Proof.
  intros Hp Hr Hne.
  pose proof (check_git_installed_fatal w args s1 s2 ret_ git_version Hr Hne)
    as Hc.
  assert (Hb : preflight w args s1
               = Raise (SystemExit 1)
                   (mkOS (cwd s2)
                      (log s2
                       ++ [EvStderr (lit "git is not installed." ++ newline)]))).
  { unfold preflight, bind. rewrite Hc. reflexivity. }
  rewrite (main_after_parse w s s1 args Hp).
  split; [apply try_finally_chdir_exit_1; rewrite Hb; reflexivity|].
  rewrite try_finally_chdir_log, Hb. simpl. split; [reflexivity|].
  destruct (run_command_state w (CmdStr git_version_cmd) false false s1)
    as [_ Hl].
  rewrite Hr in Hl. simpl in Hl.
  rewrite Hl, !execs_of_app. simpl. rewrite app_nil_r.
  pose proof (parse_arguments_execs w s) as He. rewrite Hp in He.
  simpl in He. rewrite He. reflexivity.
Qed.

Lemma git_missing_stops_main_witness :
  exit_status (main world_no_git start) = 1
  /\ execs_of (log (state_of (main world_no_git start)))
     = [(home, git_version_cmd)].
Proof.
  pose proof
    (git_missing_stops_main world_no_git start start
       (mkOS home [EvExec home git_version_cmd])
       (default_namespace get_cli_args_parser) 127 []
       eq_refl eq_refl ltac:(discriminate)) as H.
  split; [exact (proj1 H) | exact (proj2 (proj2 H))].
Defined.

(** ** C6: a failed HEAD resolution ends the run *)

(** C6.  When the version check and the repository check have both
    returned and the runner returns a non-zero code for the HEAD query,
    [main] ends with exit status 1 after the diagnostic. *)
Theorem head_failure_exits_1 (w : World) (s s1 s2 s3 s4 : OS)
  (args : Namespace) (ret_ : Z) (base_commit : str) :
  parse_arguments w s = Ret args s1 ->
  check_git_installed w args s1 = Ret tt s2 ->
  check_valid_repo w s2 = Ret tt s3 ->
  run_command w (CmdStr head_cmd) false false s3
  = Ret (ret_, base_commit) s4 ->
  ret_ <> 0 ->
  exit_status (main w s) = 1
  /\ log (state_of (main w s))
     = log s4 ++ [EvStderr (lit "failed to get base commit-id." ++ newline)].
Proof.
  intros Hp Ha Hb Hr Hne.
  pose proof (get_base_commit_fatal w s3 s4 ret_ base_commit Hr Hne) as Hc.
  assert (Hbody : preflight w args s1
                  = Raise (SystemExit 1)
                      (mkOS (cwd s4)
                         (log s4
                          ++ [EvStderr (lit "failed to get base commit-id."
                                        ++ newline)]))).
  { unfold preflight, bind. rewrite Ha, Hb, Hc. reflexivity. }
  rewrite (main_after_parse w s s1 args Hp).
  split; [apply try_finally_chdir_exit_1; rewrite Hbody; reflexivity|].
  rewrite try_finally_chdir_log, Hbody. reflexivity.
Qed.

Lemma head_failure_exits_1_witness :
  exit_status (main world_unborn start) = 1.
Proof.
  exact (proj1
    (head_failure_exits_1 world_unborn start start
       (mkOS home [EvExec home git_version_cmd])
       (mkOS home [EvExec home git_version_cmd; EvExec home work_tree_cmd])
       (mkOS home [EvExec home git_version_cmd; EvExec home work_tree_cmd;
                   EvExec home head_cmd])
       (default_namespace get_cli_args_parser) 128
       (lit "HEAD" ++ newline)
       eq_refl eq_refl eq_refl eq_refl ltac:(discriminate))).
Defined.

(** ** C2: the compound condition of the repository check *)

(** C2.  When the version check has returned and the runner returns
    [(ret_, git_repo)] for the work-tree query, [main] ends in the fatal
    branch of the repository check if and only if [ret_] is non-zero and
    the stripped output is not the text true; otherwise (a zero code, or a
    non-zero code with an output that strips to true) it goes on to the
    HEAD query. *)
Theorem repo_check_fatal_iff (w : World) (s s1 s2 s3 : OS) (args : Namespace)
  (ret_ : Z) (git_repo : str) :
  parse_arguments w s = Ret args s1 ->
  check_git_installed w args s1 = Ret tt s2 ->
  run_command w (CmdStr work_tree_cmd) false false s2
  = Ret (ret_, git_repo) s3 ->
  (fatal_at_repo_check (main w s) s3
   <-> ret_ <> 0 /\ strip git_repo <> lit "true")
  /\ (ret_ = 0 \/ strip git_repo = lit "true" ->
      exists l,
        log (state_of (main w s)) = log s3 ++ EvExec (cwd s3) head_cmd :: l).
Proof.
  intros Hp Ha Hr.
  pose proof (check_valid_repo_run w s2 s3 ret_ git_repo Hr) as Hc.
  pose proof (fatal_condition ret_ git_repo) as Hcond.
  rewrite (main_after_parse w s s1 args Hp).
  assert (Hgo : negb (ret_ =? 0)
                && negb (str_eqb (strip git_repo) (lit "true")) = false ->
                exists l,
                  log (state_of
                         (try_finally (fun _ => preflight w args s1)
                            (os_chdir w (saved_cwd s)) s))
                  = log s3 ++ EvExec (cwd s3) head_cmd :: l).
  { intros Hf. rewrite Hf in Hc. rewrite try_finally_chdir_log.
    unfold preflight, bind. rewrite Ha, Hc. apply get_base_commit_log. }
  split.
  - unfold fatal_at_repo_check. rewrite <- Hcond.
    destruct (negb (ret_ =? 0)
              && negb (str_eqb (strip git_repo) (lit "true"))) eqn:Hf.
    + split; [reflexivity|]. intros _.
      assert (Hbody : preflight w args s1
                      = Raise (SystemExit 1)
                          (mkOS (cwd s3)
                             (log s3
                              ++ [EvStderr (lit "not a valid git repo."
                                            ++ newline)]))).
      { unfold preflight, bind. rewrite Ha, Hc. reflexivity. }
      split; [apply try_finally_chdir_exit_1; rewrite Hbody; reflexivity|].
      rewrite try_finally_chdir_log, Hbody. reflexivity.
    + split; [|discriminate]. intros [_ Hl].
      destruct (Hgo eq_refl) as [l Hl']. rewrite Hl' in Hl.
      apply app_inv_head in Hl. discriminate Hl.
  - intros Hor. apply Hgo.
    destruct (negb (ret_ =? 0)
              && negb (str_eqb (strip git_repo) (lit "true"))) eqn:Hf;
      [|reflexivity].
    apply fatal_condition in Hf. destruct Hf as [H1 H2].
    destruct Hor; contradiction.
Qed.

Lemma repo_check_fatal_iff_witness :
  fatal_at_repo_check (main world_no_repo start)
    (mkOS home [EvExec home git_version_cmd; EvExec home work_tree_cmd]).
Proof.
  apply (proj1
    (repo_check_fatal_iff world_no_repo start start
       (mkOS home [EvExec home git_version_cmd])
       (mkOS home [EvExec home git_version_cmd; EvExec home work_tree_cmd])
       (default_namespace get_cli_args_parser) 128 []
       eq_refl eq_refl eq_refl)).
  split; [discriminate | vm_compute; discriminate].
Defined.

(** A work-tree query that fails while printing the word true: the check
    lets it pass and the run ends normally. *)
Example loose_repo_check_passes :
  let w := mkWorld [] (fun p => Some p)
             (fun _ _ cmd =>
                if str_eqb cmd work_tree_cmd
                then Exited 1 (list_byte_of_string "true")
                else git_answers cmd) in
  main w start
  = Ret tt (mkOS home [EvExec home git_version_cmd;
                       EvExec home work_tree_cmd;
                       EvExec home head_cmd]).
Proof. reflexivity. Qed.

(** ** The runner on a real execution *)

Lemma run_command_real (w : World) (cmd : command) (verbose : bool) (s : OS) :
  let s' := mkOS (cwd s) (log s ++ run_footprint (cwd s) cmd false verbose) in
  run_command w cmd false verbose s
  = match real_result
            (w_spawn w (execs_of (log s)) (cwd s) (command_text cmd)) with
    | inl r => Ret r s'
    | inr e => Raise e s'
    end.
Proof.
  unfold run_command, run_footprint, command_text.
  set (text := match cmd with CmdList t => join (lit " ") t | CmdStr c => c end).
  unfold bind, try_except, subprocess_run, bytes_decode, print, emit, ret,
    raise, real_result.
  destruct verbose; simpl; rewrite ?execs_of_app; simpl;
    rewrite ?app_nil_r;
    destruct (w_spawn w (execs_of (log s)) (cwd s) text) as [rc out|[out|]|];
    simpl;
    try (destruct (rc =? 0)); simpl;
    try (destruct (decode out)); simpl;
    rewrite <- ?app_assoc; reflexivity.
Qed.

(** ** C7: a timeout without output escapes the runner *)

(** C7 (the script misses it).  The runner is meant to turn a timeout into
    the pair of -1 and the output read so far.  When nothing was read,
    [ex.stdout] is [None] and the handler itself raises AttributeError;
    when the output read so far is not valid UTF-8, it raises
    UnicodeDecodeError.  Both leave the runner as exceptions. *)
Theorem timeout_escapes_runner :
  run_command world_hang (CmdStr (lit "sleep 20")) false false start
  = Raise AttributeError (mkOS home [EvExec home (lit "sleep 20")])
  /\ run_command world_cut (CmdStr (lit "sleep 20")) false false start
     = Raise UnicodeDecodeError (mkOS home [EvExec home (lit "sleep 20")]).
Proof. split; reflexivity. Qed.

(** What does hold: a timeout with output that decodes gives -1 and the
    decoded text. *)
Lemma timeout_with_output (w : World) (c : str) (s : OS) (out : bytes)
  (t : str) :
  w_spawn w (execs_of (log s)) (cwd s) c = TimedOut (Some out) ->
  decode out = Some t ->
  run_command w (CmdStr c) false false s
  = Ret (-1, t) (mkOS (cwd s) (log s ++ [EvExec (cwd s) c])).
Proof.
  intros Hs Hd. rewrite run_command_real. cbn [command_text].
  rewrite Hs. simpl. rewrite Hd. reflexivity.
Qed.

(** ** C8: a failed command with undecodable output escapes the runner *)

(** C8 (the script misses it).  A command that ends with a non-zero code
    is meant to give the pair of its code and its output.  The output is
    decoded inside the handler of CalledProcessError, where the catch-all
    handler no longer applies: output that is not valid UTF-8 leaves the
    runner as UnicodeDecodeError. *)
Theorem failed_command_escapes_runner :
  run_command world_latin1 (CmdStr (lit "git status")) false false start
  = Raise UnicodeDecodeError (mkOS home [EvExec home (lit "git status")]).
Proof. reflexivity. Qed.

(** What does hold: with output that decodes the runner returns the code
    of the command and the text; a failure to start the command gives -1
    and the empty text. *)
Lemma failed_command_with_text (w : World) (c : str) (s : OS) (rc : Z)
  (out : bytes) (t : str) :
  w_spawn w (execs_of (log s)) (cwd s) c = Exited rc out ->
  decode out = Some t ->
  run_command w (CmdStr c) false false s
  = Ret (rc, t) (mkOS (cwd s) (log s ++ [EvExec (cwd s) c])).
Proof.
  intros Hs Hd. rewrite run_command_real. cbn [command_text].
  rewrite Hs. simpl. rewrite Hd. reflexivity.
Qed.

Lemma spawn_failure_sentinel (w : World) (c : str) (s : OS) :
  w_spawn w (execs_of (log s)) (cwd s) c = SpawnFailed ->
  run_command w (CmdStr c) false false s
  = Ret (-1, []) (mkOS (cwd s) (log s ++ [EvExec (cwd s) c])).
Proof.
  intros Hs. rewrite run_command_real. cbn [command_text].
  rewrite Hs. reflexivity.
Qed.

(** ** The log only grows *)

Lemma extends_ret {A} (a : A) : extends (ret a).
Proof. intros s. exists []. simpl. rewrite app_nil_r. reflexivity. Qed.

Lemma extends_raise {A} (e : exn) : extends (@raise A e).
Proof. intros s. exists []. simpl. rewrite app_nil_r. reflexivity. Qed.

Lemma extends_emit (e : event) : extends (emit e).
Proof. intros s. exists [e]. reflexivity. Qed.

Lemma extends_attr (ns : Namespace) (name : str) : extends (attr ns name).
Proof.
  unfold attr. destruct (getattr ns name);
    [apply extends_ret | apply extends_raise].
Qed.

Lemma extends_run_command (w : World) (cmd : command) (dry_run verbose : bool) :
  extends (run_command w cmd dry_run verbose).
Proof.
  intros s. destruct (run_command_state w cmd dry_run verbose s) as [_ Hl].
  eexists. exact Hl.
Qed.

Lemma extends_bind {A B} (m : M A) (k : A -> M B) :
  extends m -> (forall a, extends (k a)) -> extends (bind m k).
Proof.
  intros Hm Hk s. unfold bind. destruct (Hm s) as [l Hl].
  destruct (m s) as [a s1|e s1]; simpl in *.
  - destruct (Hk a s1) as [l2 Hl2]. exists (l ++ l2).
    rewrite Hl2, Hl, app_assoc. reflexivity.
  - exists l. exact Hl.
Qed.

(** A sequence whose first part starts by the event [e] starts by it. *)
Lemma bind_first_event {A B} (m : M A) (k : A -> M B) (s : OS) (e : event) :
  (exists l, log (state_of (m s)) = log s ++ e :: l) ->
  (forall a, extends (k a)) ->
  exists l, log (state_of (bind m k s)) = log s ++ e :: l.
Proof.
  intros [l Hl] Hk. unfold bind.
  destruct (m s) as [a s1|x s1]; simpl in *.
  - destruct (Hk a s1) as [l2 Hl2]. exists (l ++ l2).
    rewrite Hl2, Hl, <- app_assoc. reflexivity.
  - exists l. exact Hl.
Qed.

Ltac extends_tac :=
  repeat first
    [ apply extends_ret | apply extends_raise | apply extends_emit
    | apply extends_attr | apply extends_run_command
    | apply extends_bind; [|intros]
    | match goal with
      | |- extends (match ?x with _ => _ end) => destruct x
      | |- extends (sys_exit _) => apply extends_raise
      | |- extends (print _) => apply extends_emit
      | |- extends (eprint _) => apply extends_emit
      end ].

Lemma extends_check_valid_repo (w : World) : extends (check_valid_repo w).
Proof. unfold check_valid_repo. extends_tac. Qed.

Lemma extends_get_base_commit (w : World) : extends (get_base_commit w).
Proof. unfold get_base_commit. extends_tac. Qed.

(** The version query is the first thing the preflight does. *)
Lemma preflight_first_event (w : World) (args : Namespace) (s1 : OS) :
  exists l,
    log (state_of (preflight w args s1))
    = log s1 ++ EvExec (cwd s1) git_version_cmd :: l.
Proof.
  unfold preflight, check_git_installed.
  do 2 (apply bind_first_event;
        [| intros; extends_tac;
           auto using extends_check_valid_repo, extends_get_base_commit]).
  destruct (run_command_state w (CmdStr git_version_cmd) false false s1)
    as [_ Hl].
  exists []. exact Hl.
Qed.

(** ** C1: dry-run stops at the runner, [main] does not pass it on *)

(** C1 as stated fails.  With [--dry-run true] on the command line the
    parsed option is truthy, yet [main] really executes its three queries:
    it calls the runner with the default [dry_run=False]. *)
Lemma dry_run_main_executes :
  parse_arguments (world_ok argv_dry) start = Ret args_dry start
  /\ option_map truthy (getattr args_dry (lit "dry_run")) = Some true
  /\ execs_of (log (state_of (main (world_ok argv_dry) start)))
     = [(home, git_version_cmd); (home, work_tree_cmd); (home, head_cmd)].
Proof. repeat split; vm_compute; reflexivity. Qed.

(** C1, amended.  A call of the runner with [dry_run] set executes nothing
    and returns 0 with the empty text, after the echo of the command.
    [main] calls the runner for its queries without passing the option on:
    whatever the parsed arguments, once they are parsed and the directory
    is entered the version query is really executed. *)
Theorem dry_run_stops_at_runner :
  (forall w cmd verbose s,
      run_command w cmd true verbose s
      = Ret (0, [])
          (mkOS (cwd s) (log s ++ [EvStdout (command_text cmd ++ newline)])))
  /\ (forall w s args s1,
         parse_arguments w s = Ret args s1 ->
         exists l,
           log (state_of (main w s))
           = log s1 ++ EvExec (cwd s1) git_version_cmd :: l).
Proof.
  split.
  - intros w cmd verbose s. rewrite run_command_dry. unfold run_footprint.
    simpl. reflexivity.
  - intros w s args s1 Hp. rewrite (main_after_parse w s s1 args Hp).
    rewrite try_finally_chdir_log. apply preflight_first_event.
Qed.

Lemma dry_run_stops_at_runner_witness :
  exists l,
    log (state_of (main (world_ok argv_dry) start))
    = [] ++ EvExec home git_version_cmd :: l.
Proof.
  exact (proj2 dry_run_stops_at_runner (world_ok argv_dry) start args_dry
               start eq_refl).
Defined.

(** ** C9: the branch ensurer *)

Lemma invocations_app (cmd : str) (dry_run : bool) (l1 l2 : list event) :
  invocations cmd dry_run (l1 ++ l2)
  = (invocations cmd dry_run l1 + invocations cmd dry_run l2)%nat.
Proof. unfold invocations. rewrite filter_app, length_app. reflexivity. Qed.

Lemma invocations_diagnostic (cmd : str) (dry_run : bool) (ret_ : Z)
  (output : str) :
  invocations cmd dry_run (diagnostic ret_ output) = 0%nat.
Proof. unfold diagnostic. destruct (negb _); reflexivity. Qed.

Lemma invocations_announce (name : str) (dry_run verbose : bool)
  (tracer_branch : str) :
  invocations (create_branch_cmd name) dry_run (announce verbose tracer_branch)
  = 0%nat.
Proof.
  unfold announce. destruct verbose; [|reflexivity].
  unfold invocations. simpl. rewrite andb_false_r. reflexivity.
Qed.

Lemma list_cmd_not_create_cmd (name : str) :
  str_eqb (list_branch_cmd name) (create_branch_cmd name) = false.
Proof.
  destruct (str_eqb_spec (list_branch_cmd name) (create_branch_cmd name))
    as [H|H]; [|reflexivity].
  apply (f_equal (@List.length char)) in H.
  unfold list_branch_cmd, create_branch_cmd in H.
  rewrite !length_app in H. simpl in H. lia.
Qed.

Lemma invocations_footprint (dir cmd : str) (dry_run verbose : bool) :
  invocations cmd dry_run (run_footprint dir (CmdStr cmd) dry_run verbose)
  = 1%nat.
Proof.
  unfold invocations, run_footprint. simpl.
  destruct dry_run, verbose; simpl; rewrite ?str_eqb_refl; reflexivity.
Qed.

(** What does hold of the ensurer.  When the runner returns
    [(ret_, tracer_branch)] for the branch-list query and, in case the
    stripped listing is empty, returns for the branch-create command as
    well, the ensurer returns normally whatever the two codes are.  What it adds to the log is the list
    query, the diagnostic on stderr when its code is not zero and, only
    when the stripped listing is empty, one call of the runner on the
    create command followed by the diagnostic when that code is not zero.
    So the create command is handed to the runner once when the stripped
    listing is empty and never otherwise. *)
Theorem ensurer_creates_iff_absent (w : World) (name : str)
  (dry_run verbose : bool) (s s1 s2 : OS) (ret_ ret2 : Z)
  (tracer_branch output : str) :
  run_command w (CmdStr (list_branch_cmd name)) false false s
  = Ret (ret_, tracer_branch) s1 ->
  (strip tracer_branch = [] ->
   run_command w (CmdStr (create_branch_cmd name)) dry_run verbose
     (mkOS (cwd s1)
           ((log s1 ++ diagnostic ret_ tracer_branch)
            ++ announce verbose tracer_branch))
   = Ret (ret2, output) s2) ->
  exists l,
    create_tracer_branch w name dry_run verbose s
    = Ret tt (mkOS (cwd s) (log s ++ l))
    /\ l = EvExec (cwd s) (list_branch_cmd name)
           :: diagnostic ret_ tracer_branch
           ++ (if str_eqb (strip tracer_branch) []
               then announce verbose tracer_branch
                    ++ run_footprint (cwd s) (CmdStr (create_branch_cmd name))
                         dry_run verbose
                    ++ diagnostic ret2 output
               else [])
    /\ invocations (create_branch_cmd name) dry_run l
       = if str_eqb (strip tracer_branch) [] then 1%nat else 0%nat.
Proof.
  intros Hr Hc.
  destruct (run_command_state w (CmdStr (list_branch_cmd name)) false false s)
    as [Hcwd Hlog].
  rewrite Hr in Hcwd, Hlog. simpl in Hcwd, Hlog.
  eexists. split; [|split; [reflexivity|]].
  - unfold create_tracer_branch, bind. rewrite Hr.
    assert (Hdiag :
      (if negb (ret_ =? 0)
       then eprint [lit "command failed: "; tracer_branch] else ret tt) s1
      = Ret tt (mkOS (cwd s1) (log s1 ++ diagnostic ret_ tracer_branch))).
    { unfold diagnostic. destruct (negb (ret_ =? 0)); simpl;
        [reflexivity|]. rewrite app_nil_r. destruct s1; reflexivity. }
    rewrite Hdiag.
    destruct (str_eqb_spec (strip tracer_branch) []) as [He|He].
    + specialize (Hc He).
      assert (Hann :
        (if verbose
         then print [lit "create branch: "; tracer_branch] else ret tt)
          (mkOS (cwd s1) (log s1 ++ diagnostic ret_ tracer_branch))
        = Ret tt (mkOS (cwd s1)
                       ((log s1 ++ diagnostic ret_ tracer_branch)
                        ++ announce verbose tracer_branch))).
      { unfold announce. destruct verbose; simpl; [reflexivity|].
        rewrite app_nil_r. reflexivity. }
      rewrite Hann, Hc.
      destruct (run_command_state w (CmdStr (create_branch_cmd name)) dry_run
                  verbose
                  (mkOS (cwd s1)
                        ((log s1 ++ diagnostic ret_ tracer_branch)
                         ++ announce verbose tracer_branch)))
        as [Hcwd2 Hlog2].
      rewrite Hc in Hcwd2, Hlog2. simpl in Hcwd2, Hlog2.
      assert (Hfin :
        (if negb (ret2 =? 0)
         then eprint [lit "command failed: "; output] else ret tt) s2
        = Ret tt (mkOS (cwd s2) (log s2 ++ diagnostic ret2 output))).
      { unfold diagnostic. destruct (negb (ret2 =? 0)); simpl;
          [reflexivity|]. rewrite app_nil_r. destruct s2; reflexivity. }
      rewrite Hfin, Hcwd2, Hlog2, Hcwd, Hlog.
      f_equal. f_equal. rewrite <- !app_assoc. reflexivity.
    + unfold ret. rewrite Hcwd, Hlog. f_equal. f_equal.
      rewrite <- !app_assoc, app_nil_r. reflexivity.
  - change (EvExec (cwd s) (list_branch_cmd name) :: ?x)
      with ([EvExec (cwd s) (list_branch_cmd name)] ++ x).
    rewrite !invocations_app, invocations_diagnostic.
    assert (Hlist : invocations (create_branch_cmd name) dry_run
                      [EvExec (cwd s) (list_branch_cmd name)] = 0%nat).
    { unfold invocations. cbn [filter].
      rewrite list_cmd_not_create_cmd, andb_false_r. reflexivity. }
    rewrite Hlist.
    destruct (str_eqb (strip tracer_branch) []); [|reflexivity].
    rewrite !invocations_app, invocations_announce, invocations_footprint,
      invocations_diagnostic.
    reflexivity.
Qed.

Lemma ensurer_creates_iff_absent_witness :
  exists l,
    create_tracer_branch (world_ok []) (lit "build-tracer") false false start
    = Ret tt (mkOS home ([] ++ l))
    /\ l = EvExec home (list_branch_cmd (lit "build-tracer"))
           :: diagnostic 0 []
           ++ (if str_eqb (strip []) []
               then announce false []
                    ++ run_footprint home
                         (CmdStr (create_branch_cmd (lit "build-tracer")))
                         false false
                    ++ diagnostic 0 []
               else [])
    /\ invocations (create_branch_cmd (lit "build-tracer")) false l
       = if str_eqb (strip []) [] then 1%nat else 0%nat.
Proof.
  exact (ensurer_creates_iff_absent (world_ok []) (lit "build-tracer")
           false false start
           (mkOS home [EvExec home (list_branch_cmd (lit "build-tracer"))])
           (mkOS home [EvExec home (list_branch_cmd (lit "build-tracer"));
                       EvExec home (create_branch_cmd (lit "build-tracer"))])
           0 0 [] [] eq_refl (fun _ => eq_refl)).
Defined.

(** C9 (the script misses it).  The ensurer is meant to report a failed
    list or create command on stderr and go on.  It calls the runner
    outside any [try]: when the list query, or the create command after
    an empty listing, is stopped by the timeout with nothing read, the
    AttributeError raised inside the runner leaves the ensurer as well and
    ends the process, with nothing written to stderr. *)
Theorem ensurer_timeout_escapes :
  create_tracer_branch world_hang (lit "build-tracer") false false start
  = Raise AttributeError
      (mkOS home [EvExec home (list_branch_cmd (lit "build-tracer"))])
  /\ create_tracer_branch world_create_hangs (lit "build-tracer") false false
       start
     = Raise AttributeError
         (mkOS home [EvExec home (list_branch_cmd (lit "build-tracer"));
                     EvExec home (create_branch_cmd (lit "build-tracer"))]).
Proof. split; reflexivity. Qed.

(** ** argparse: what follows a prefix that parsed *)

Lemma classify_cons (p : ArgumentParser) (a : str) (rest : list str) :
  classify p (a :: rest)
  = if str_eqb a (lit "--") then Some (TokDashes :: map TokA rest)
    else
      match parse_optional p a with
      | OptionalError => None
      | Positional => option_map (cons (TokA a)) (classify p rest)
      | Optional action option_string explicit_arg =>
        option_map (cons (TokO a action option_string explicit_arg))
                   (classify p rest)
      end.
Proof. reflexivity. Qed.

Lemma classify_app (p : ArgumentParser) (pre post : list str) :
  forall toks,
    classify p pre = Some toks -> ~ In TokDashes toks ->
    classify p (pre ++ post) = option_map (app toks) (classify p post).
Proof.
  induction pre as [|a pre IH]; intros toks H Hn.
  - inversion H. simpl. destruct (classify p post); reflexivity.
  - change ((a :: pre) ++ post) with (a :: (pre ++ post)).
    rewrite classify_cons in H |- *.
    destruct (str_eqb a (lit "--")).
    { inversion H; subst. exfalso. apply Hn. left. reflexivity. }
    destruct (parse_optional p a); try discriminate;
      destruct (classify p pre) as [toks'|]; try discriminate;
      inversion H; subst;
      (rewrite (IH toks' eq_refl);
       [destruct (classify p post); reflexivity
       | intros Hin; apply Hn; right; exact Hin]).
Qed.

Lemma consume_option (p : ArgumentParser) (a : str) (action : Action)
  (option_string : str) (explicit_arg : option str) (rest : list token)
  (ns : Namespace) (extras : list str) :
  consume p (TokO a (Some action) option_string explicit_arg :: rest) ns extras
  = match consume_optional p action option_string explicit_arg
            (match rest with TokA x :: _ => Some x | _ => None end) with
    | None => ParseError
    | Some (tuples, used_following) =>
      match take_actions ns tuples with
      | None => ParseHelp
      | Some ns1 =>
        if used_following then
          match rest with
          | _ :: rest' => consume p rest' ns1 extras
          | [] => ParseOk ns1 extras
          end
        else consume p rest ns1 extras
      end
    end.
Proof. reflexivity. Qed.

Lemma take_actions_help (ns : Namespace) (action : Action) (args : list str)
  (option_string : str) (tuples : list action_tuple) :
  class action = HelpAction ->
  take_actions ns ((action, args, option_string) :: tuples) = None.
Proof. intros H. simpl. rewrite H. reflexivity. Qed.

(** An option that found its arguments without a following string, and
    whose actions did not exit, finds the same whatever follows. *)
Lemma consume_optional_alone (p : ArgumentParser) (action : Action)
  (option_string : str) (explicit_arg : option str)
  (tuples : list action_tuple) (used : bool) (ns ns1 : Namespace) :
  consume_optional p action option_string explicit_arg None
  = Some (tuples, used) ->
  take_actions ns tuples = Some ns1 ->
  used = false
  /\ forall following,
       consume_optional p action option_string explicit_arg following
       = Some (tuples, false).
Proof.
  unfold consume_optional. intros Hc Ht.
  destruct explicit_arg as [e|].
  - destruct (class action) eqn:Hcl.
    + exfalso.
      destruct e as [|c e']; simpl in Hc; rewrite Hcl in Hc;
        destruct option_string as [|c0 [|c1 os]]; try discriminate.
      destruct (negb (N.eqb c1 dash)); try discriminate.
      destruct (lookup [c0; c] (option_string_actions p)); try discriminate.
      match type of Hc with
      | option_map _ ?x = _ => destruct x as [[t u]|]; try discriminate
      end.
      simpl in Hc. inversion Hc; subst.
      rewrite (take_actions_help _ _ _ _ _ Hcl) in Ht. discriminate.
    + assert (Hs : forall f,
                 consume_explicit p action option_string e f
                 = Some ([(action, [e], option_string)], false)).
      { intros f. destruct e; simpl; rewrite Hcl; reflexivity. }
      rewrite Hs in Hc. inversion Hc; subst. split; [reflexivity|exact Hs].
  - exfalso. unfold match_following in Hc.
    destruct (class action) eqn:Hcl; try discriminate.
    simpl in Hc. inversion Hc; subst.
    rewrite (take_actions_help _ _ _ _ _ Hcl) in Ht. discriminate.
Qed.

(** A run of the loop that ends well: the extras only grow, a [--] among
    the strings is one of them, and the loop goes on the same way on
    whatever is appended. *)
Lemma consume_ok (p : ArgumentParser) (n : nat) :
  forall toks,
    (List.length toks <= n)%nat ->
    forall ns ex ns' ex',
      consume p toks ns ex = ParseOk ns' ex' ->
      (List.length ex <= List.length ex')%nat
      /\ (In TokDashes toks -> (List.length ex < List.length ex')%nat)
      /\ (forall post, consume p (toks ++ post) ns ex = consume p post ns' ex').
Proof.
  induction n as [|n IH]; intros toks Hlen ns ex ns' ex' H.
  - destruct toks; [|simpl in Hlen; lia].
    simpl in H. inversion H; subst.
    split; [lia|]. split; [intros []|reflexivity].
  - destruct toks as [|t rest].
    { simpl in H. inversion H; subst.
      split; [lia|]. split; [intros []|reflexivity]. }
    simpl in Hlen.
    assert (Hskip : forall x,
               consume p rest ns (ex ++ [x]) = ParseOk ns' ex' ->
               (List.length ex < List.length ex')%nat
               /\ (forall post,
                      consume p (rest ++ post) ns (ex ++ [x])
                      = consume p post ns' ex')).
    { intros x Hx. apply IH in Hx; [|lia].
      destruct Hx as (H1 & _ & H3). rewrite length_app in H1. simpl in H1.
      split; [lia|exact H3]. }
    destruct t as [a| |a [action|] option_string explicit_arg].
    + simpl in H. destruct (Hskip a H) as [H1 H3].
      split; [lia|]. split; [intros _; exact H1|exact H3].
    + simpl in H. destruct (Hskip _ H) as [H1 H3].
      split; [lia|]. split; [intros _; exact H1|exact H3].
    + rewrite consume_option in H.
      destruct (consume_optional p action option_string explicit_arg _)
        as [[tuples used]|] eqn:Hco; try discriminate.
      destruct (take_actions ns tuples) as [ns1|] eqn:Hta; try discriminate.
      destruct rest as [|t' rest'].
      * destruct (consume_optional_alone _ _ _ _ _ _ _ _ Hco Hta)
          as [-> Hany].
        simpl in H. inversion H; subst.
        split; [lia|]. split; [intros [Hd|[]]; discriminate|].
        intros post. simpl app. rewrite consume_option, Hany, Hta.
        reflexivity.
      * assert (Hfol : forall post,
                   match (t' :: rest') ++ post with
                   | TokA x :: _ => Some x
                   | _ => None
                   end
                   = match t' :: rest' with
                     | TokA x :: _ => Some x
                     | _ => None
                     end) by (intros; destruct t'; reflexivity).
        destruct used.
        -- assert (Ht' : exists x, t' = TokA x).
           { destruct t' as [x| |]; [exists x; reflexivity| |];
               destruct (consume_optional_alone _ _ _ _ _ _ _ _ Hco Hta);
               discriminate. }
           destruct Ht' as [x ->].
           apply IH in H; [|simpl in Hlen; lia].
           destruct H as (H1 & H2 & H3).
           split; [exact H1|]. split.
           ++ intros [Hd|[Hd|Hd]]; try discriminate. exact (H2 Hd).
           ++ intros post.
              change ((TokO a (Some action) option_string explicit_arg
                       :: TokA x :: rest') ++ post)
                with (TokO a (Some action) option_string explicit_arg
                      :: (TokA x :: rest') ++ post).
              rewrite consume_option, Hfol, Hco, Hta. apply H3.
        -- apply IH in H; [|simpl in Hlen |- *; lia].
           destruct H as (H1 & H2 & H3).
           split; [exact H1|]. split.
           ++ intros [Hd|Hd]; [discriminate|exact (H2 Hd)].
           ++ intros post.
              change ((TokO a (Some action) option_string explicit_arg
                       :: t' :: rest') ++ post)
                with (TokO a (Some action) option_string explicit_arg
                      :: (t' :: rest') ++ post).
              rewrite consume_option, Hfol, Hco, Hta. apply H3.
    + simpl in H. destruct (Hskip a H) as [H1 H3].
      split; [lia|]. split; [|exact H3].
      intros _. exact H1.
Qed.

(** After arguments that parse without extras, the rest of the command
    line is parsed from the namespace they gave. *)
Lemma parse_known_args_app (p : ArgumentParser) (pre post : list str)
  (ns : Namespace) :
  parse_known_args p pre = ParseOk ns [] ->
  parse_known_args p (pre ++ post)
  = match classify p post with
    | None => ParseError
    | Some tokens => consume p tokens ns []
    end.
Proof.
  unfold parse_known_args.
  destruct (classify p pre) as [toks|] eqn:Hc; [|discriminate].
  intros H.
  destruct (consume_ok p (List.length toks) toks (le_n _) _ _ _ _ H)
    as (_ & H2 & H3).
  rewrite (classify_app p pre post toks Hc).
  - destruct (classify p post) as [tp|]; simpl; [|reflexivity].
    apply H3.
  - intros Hin. apply H2 in Hin. simpl in Hin. lia.
Qed.

(** ** The options -n and -v: their spellings *)

Lemma value_flag_token (flag dest_ : str) :
  In (flag, dest_) value_flags ->
  str_eqb flag (lit "--") = false
  /\ exists action,
       parse_optional get_cli_args_parser flag
       = Optional (Some action) flag None
       /\ class action = StoreAction
       /\ dest action = dest_.
Proof.
  intros [H|[H|[H|[H|[]]]]]; inversion H; subst;
    (split; [reflexivity|]); eexists;
    (split; [vm_compute; reflexivity|]); split; reflexivity.
Qed.




(** * Further properties of the script *)

(** ** [run_command] *)

(** X1.  Whatever its arguments and however it ends (a pair returned or an
    exception), [run_command] leaves the working directory alone and adds
    to the log the echo of the command when dry-run or verbose is set and
    one execution when dry-run is not set, nothing else. *)
Theorem runner_frame (w : World) (cmd : command) (dry_run verbose : bool)
  (s : OS) :
  cwd (state_of (run_command w cmd dry_run verbose s)) = cwd s
  /\ log (state_of (run_command w cmd dry_run verbose s))
     = log s
       ++ (if dry_run || verbose
           then [EvStdout (command_text cmd ++ newline)] else [])
       ++ (if dry_run then [] else [EvExec (cwd s) (command_text cmd)]).
Proof. exact (run_command_state w cmd dry_run verbose s). Qed.

(** X2.  The verbose flag is a diagnostic only: with it the runner gives
    back the same pair, or raises the same exception, as without it, and
    the log differs by the echo of the command put before the rest. *)
Theorem verbose_only_echoes (w : World) (cmd : command) (dry_run : bool)
  (s : OS) :
  outcome (run_command w cmd dry_run true s)
  = outcome (run_command w cmd dry_run false s)
  /\ exists l,
       log (state_of (run_command w cmd dry_run false s)) = log s ++ l
       /\ log (state_of (run_command w cmd dry_run true s))
          = log s ++ EvStdout (command_text cmd ++ newline)
              :: (if dry_run then [] else l).
Proof.
  destruct dry_run.
  - rewrite !run_command_dry. split; [reflexivity|].
    exists (run_footprint (cwd s) cmd true false). split; reflexivity.
  - rewrite !run_command_real.
    destruct (real_result _); simpl; (split; [reflexivity|]);
      exists [EvExec (cwd s) (command_text cmd)]; split; reflexivity.
Qed.

(** X3.  A code 0 returned by a real call can be trusted: the command ran
    to completion with exit status 0 and the text returned is its decoded
    output.  (Timeouts, failures to start and undecodable output all give
    -1.) *)
Theorem zero_code_is_success (w : World) (cmd : command) (verbose : bool)
  (s s' : OS) (t : str) :
  run_command w cmd false verbose s = Ret (0, t) s' ->
  exists out,
    w_spawn w (execs_of (log s)) (cwd s) (command_text cmd) = Exited 0 out
    /\ decode out = Some t.
Proof.
  rewrite run_command_real. unfold real_result.
  destruct (w_spawn w _ _ _) as [rc out|[out|]|].
  - destruct (decode out) as [t'|] eqn:Hd.
    + intros H. inversion H; subst. exists out. auto.
    + destruct (rc =? 0); intros H; inversion H.
  - destruct (decode out); intros H; inversion H.
  - intros H; inversion H.
  - intros H; inversion H.
Qed.

Lemma zero_code_is_success_witness :
  exists out,
    w_spawn (world_ok []) (execs_of (log start)) (cwd start)
            (command_text (CmdStr git_version_cmd)) = Exited 0 out
    /\ decode out = Some (lit "git version 2.39.2" ++ newline).
Proof.
  exact (zero_code_is_success (world_ok []) (CmdStr git_version_cmd) false
           start (mkOS home [EvExec home git_version_cmd])
           (lit "git version 2.39.2" ++ newline) eq_refl).
Defined.

(** X4.  The exceptions that leave [run_command] are exactly those raised
    inside its handlers: AttributeError after a timeout with nothing read,
    UnicodeDecodeError after a timeout or a non-zero exit with output that
    is not UTF-8.  TimeoutExpired, CalledProcessError, OSError and
    SystemExit never leave it, and a dry run raises nothing. *)
Theorem runner_escapes (w : World) (cmd : command) (dry_run verbose : bool)
  (s s' : OS) (e : exn) :
  run_command w cmd dry_run verbose s = Raise e s' ->
  dry_run = false
  /\ let o := w_spawn w (execs_of (log s)) (cwd s) (command_text cmd) in
     (e = AttributeError /\ o = TimedOut None)
     \/ (e = UnicodeDecodeError
         /\ exists out,
              decode out = None
              /\ (o = TimedOut (Some out)
                  \/ exists rc, rc <> 0 /\ o = Exited rc out)).
Proof.
  destruct dry_run; [rewrite run_command_dry; discriminate|].
  rewrite run_command_real. intros H. split; [reflexivity|].
  unfold real_result in H. cbv zeta.
  destruct (w_spawn w _ _ _) as [rc out|[out|]|].
  - destruct (decode out) eqn:Hd; [discriminate|].
    destruct (rc =? 0) eqn:Hrc; [discriminate|].
    inversion H; subst. right. split; [reflexivity|].
    exists out. split; [exact Hd|]. right. exists rc.
    apply Z.eqb_neq in Hrc. auto.
  - destruct (decode out) eqn:Hd; [discriminate|].
    inversion H; subst. right. split; [reflexivity|].
    exists out. auto.
  - inversion H; subst. left. auto.
  - discriminate.
Qed.

Lemma runner_escapes_witness :
  false = false
  /\ let o := w_spawn world_hang (execs_of (log start)) (cwd start)
                (command_text (CmdStr (lit "sleep 20"))) in
     (AttributeError = AttributeError /\ o = TimedOut None)
     \/ (AttributeError = UnicodeDecodeError
         /\ exists out,
              decode out = None
              /\ (o = TimedOut (Some out)
                  \/ exists rc, rc <> 0 /\ o = Exited rc out)).
Proof.
  exact (runner_escapes world_hang (CmdStr (lit "sleep 20")) false false
           start (mkOS home [EvExec home (lit "sleep 20")]) AttributeError
           eq_refl).
Defined.

(** ** [change_working_directory] *)

(** X5.  Going to a directory and back with the same flags ends where it
    started, whether the calls are dry runs, the target exists or not;
    the pair of calls fails only when the first, real, change fails. *)
Theorem cwd_round_trip (w : World) (s : OS) (p : str) (dry_run verbose : bool) :
  isabs (cwd s) = true ->
  w_resolve w (cwd s) = Some (cwd s) ->
  let there_and_back :=
    change_working_directory w p dry_run verbose ;;
    change_working_directory w (cwd s) dry_run verbose in
  cwd (state_of (there_and_back s)) = cwd s
  /\ (dry_run = true \/ w_resolve w (path_join (cwd s) p) <> None ->
      exists s', there_and_back s = Ret tt s').
Proof.
  intros Ha Hr. cbv zeta.
  unfold change_working_directory, bind, print, emit, ret, os_chdir.
  destruct dry_run; simpl.
  - split; [reflexivity|]. intros _. eexists. reflexivity.
  - destruct verbose; simpl;
      (destruct (w_resolve w (path_join (cwd s) p)) as [d|] eqn:Hp; simpl;
       [rewrite (path_join_abs _ _ Ha), Hr; simpl; split;
        [reflexivity | intros _; eexists; reflexivity]
       | split; [reflexivity | intros [H|H]; [discriminate|congruence]]]).
Qed.

Lemma cwd_round_trip_witness :
  let there_and_back :=
    change_working_directory (world_ok []) (lit "build") false true ;;
    change_working_directory (world_ok []) (cwd start) false true in
  cwd (state_of (there_and_back start)) = cwd start
  /\ (false = true
      \/ w_resolve (world_ok []) (path_join (cwd start) (lit "build")) <> None ->
      exists s', there_and_back start = Ret tt s').
Proof.
  exact (cwd_round_trip (world_ok []) start (lit "build") false true
           eq_refl eq_refl).
Defined.

(** ** [create_tracer_branch] *)

Lemma quiet_step {A} (m : M A) (s : OS) :
  issues m [] ->
  cwd (state_of (m s)) = cwd s
  /\ execs_of (log (state_of (m s))) = execs_of (log s).
Proof.
  intros H. destruct (H s) as [Hc (k & _ & Hl & _)].
  split; [exact Hc|]. rewrite Hl. destruct k; simpl; apply app_nil_r.
Qed.

(** X6.  In every environment and however it ends, the ensurer leaves the
    working directory alone and really executes the list query first, also
    in a dry run.  The only other command it can execute is the create
    command, and it does so only outside a dry run, after the list query
    returned a listing that strips to nothing. *)
Theorem ensurer_frame (w : World) (name : str) (dry_run verbose : bool)
  (s : OS) :
  let r := create_tracer_branch w name dry_run verbose s in
  cwd (state_of r) = cwd s
  /\ (execs_of (log (state_of r))
      = execs_of (log s) ++ [(cwd s, list_branch_cmd name)]
      \/ (dry_run = false
          /\ (exists ret_ t s1,
                 run_command w (CmdStr (list_branch_cmd name)) false false s
                 = Ret (ret_, t) s1
                 /\ strip t = [])
          /\ execs_of (log (state_of r))
             = execs_of (log s)
               ++ [(cwd s, list_branch_cmd name);
                   (cwd s, create_branch_cmd name)])).
Proof.
  cbv zeta. unfold create_tracer_branch, bind.
  destruct (run_command_state w (CmdStr (list_branch_cmd name)) false false s)
    as [Hc Hl].
  assert (He : execs_of (log (state_of
                 (run_command w (CmdStr (list_branch_cmd name)) false false s)))
               = execs_of (log s) ++ [(cwd s, list_branch_cmd name)]).
  { rewrite Hl, execs_of_app. reflexivity. }
  clear Hl.
  destruct (run_command w (CmdStr (list_branch_cmd name)) false false s)
    as [[ret_ t] s1|e s1] eqn:Hrun; simpl in Hc, He; [|simpl; auto].
  match goal with
  | |- context [(if negb (ret_ =? 0) then ?a else ?b) s1] =>
    destruct (quiet_step (if negb (ret_ =? 0) then a else b) s1) as [Hc2 He2];
      [destruct (negb (ret_ =? 0)); auto with issues|];
      destruct ((if negb (ret_ =? 0) then a else b) s1) as [[] s2|e s2]
  end; simpl in Hc2, He2; [|simpl; split; [congruence|left; congruence]].
  destruct (str_eqb_spec (strip t) []) as [Hs|Hs];
    [|simpl; split; [congruence|left; congruence]].
  match goal with
  | |- context [(if verbose then ?a else ?b) s2] =>
    destruct (quiet_step (if verbose then a else b) s2) as [Hc3 He3];
      [destruct verbose; auto with issues|];
      destruct ((if verbose then a else b) s2) as [[] s3|e s3]
  end; simpl in Hc3, He3; [|simpl; split; [congruence|left; congruence]].
  destruct (run_command_state w (CmdStr (create_branch_cmd name)) dry_run
              verbose s3) as [Hc4 Hl4].
  assert (He4 : execs_of (log (state_of
                  (run_command w (CmdStr (create_branch_cmd name)) dry_run
                     verbose s3)))
                = execs_of (log s3)
                  ++ (if dry_run then []
                      else [(cwd s3, create_branch_cmd name)])).
  { rewrite Hl4, execs_of_app. unfold run_footprint. rewrite execs_of_app.
    destruct dry_run, verbose; reflexivity. }
  clear Hl4.
  assert (Hfin : forall s5 : OS,
             cwd s5 = cwd s3 ->
             execs_of (log s5)
             = execs_of (log s3)
               ++ (if dry_run then [] else [(cwd s3, create_branch_cmd name)]) ->
             cwd s5 = cwd s
             /\ (execs_of (log s5)
                 = execs_of (log s) ++ [(cwd s, list_branch_cmd name)]
                 \/ (dry_run = false
                     /\ (exists ret0 t0 s0,
                            Ret (ret_, t) s1 = Ret (ret0, t0) s0
                            /\ strip t0 = [])
                     /\ execs_of (log s5)
                        = execs_of (log s)
                          ++ [(cwd s, list_branch_cmd name);
                              (cwd s, create_branch_cmd name)]))).
  { intros s5 H5c H5e. split; [congruence|].
    rewrite H5e, He3, He2, He, Hc3, Hc2, Hc.
    destruct dry_run.
    - left. rewrite app_nil_r. reflexivity.
    - right. split; [reflexivity|]. split.
      + exists ret_, t, s1. auto.
      + rewrite <- app_assoc. reflexivity. }
  destruct (run_command w (CmdStr (create_branch_cmd name)) dry_run verbose s3)
    as [[ret2 output] s4|e s4]; simpl in Hc4, He4;
    [|simpl; apply Hfin; assumption].
  match goal with
  | |- context [(if negb (ret2 =? 0) then ?a else ?b) s4] =>
    destruct (quiet_step (if negb (ret2 =? 0) then a else b) s4) as [Hc5 He5];
      [destruct (negb (ret2 =? 0)); auto with issues|]
  end.
  apply Hfin; congruence.
Qed.

(** ** [main]: the ways it ends *)

Lemma finally_restores {A} (w : World) (body : M A) (s s1 : OS) (a : A + exn) :
  canonical_cwd w s ->
  body s = match a with inl x => Ret x s1 | inr e => Raise e s1 end ->
  try_finally body (os_chdir w (saved_cwd s)) s
  = match a with
    | inl x => Ret x (mkOS (cwd s) (log s1))
    | inr e => Raise e (mkOS (cwd s) (log s1))
    end.
Proof.
  intros (Ha & Hn & Hr) Hb. unfold try_finally, saved_cwd, os_chdir.
  rewrite Hb, Ha, Hn.
  destruct a; rewrite (path_join_abs _ _ Ha), Hr; reflexivity.
Qed.

(** X7.  When the three checks pass (the version check and the repository
    check return, the HEAD query returns code 0), [main] returns normally
    from a canonical working directory: the directory is restored and
    nothing is done with the commit id, the log ends with the HEAD
    query. *)
Theorem main_succeeds (w : World) (s s1 s2 s3 s4 : OS) (args : Namespace)
  (base_commit : str) :
  canonical_cwd w s ->
  parse_arguments w s = Ret args s1 ->
  check_git_installed w args s1 = Ret tt s2 ->
  check_valid_repo w s2 = Ret tt s3 ->
  run_command w (CmdStr head_cmd) false false s3 = Ret (0, base_commit) s4 ->
  main w s = Ret tt (mkOS (cwd s) (log s4)).
Proof.
  intros Hcan Hp Ha Hb Hc. rewrite main_unfold.
  apply (finally_restores w _ s s4 (inl tt) Hcan).
  unfold bind. rewrite Hp. unfold preflight, bind. rewrite Ha, Hb.
  unfold get_base_commit, bind. rewrite Hc. reflexivity.
Qed.

Lemma main_succeeds_witness :
  main (world_ok []) start
  = Ret tt (mkOS (cwd start)
                 [EvExec home git_version_cmd; EvExec home work_tree_cmd;
                  EvExec home head_cmd]).
Proof.
  apply (main_succeeds (world_ok []) start start
           (mkOS home [EvExec home git_version_cmd])
           (mkOS home [EvExec home git_version_cmd; EvExec home work_tree_cmd])
           (mkOS home [EvExec home git_version_cmd; EvExec home work_tree_cmd;
                       EvExec home head_cmd])
           (default_namespace get_cli_args_parser)
           (lit "8f3a1c2e9d4b5a60718293a4b5c6d7e8f9012345" ++ newline)).
  - repeat split; vm_compute; reflexivity.
  - reflexivity.
  - reflexivity.
  - reflexivity.
  - reflexivity.
Defined.

(** X8.  A run of [main] that returns normally has executed all three
    queries, in order and in one directory: no check is ever skipped on
    the way to success. *)
Theorem main_return_ran_all (w : World) (s s' : OS) :
  main w s = Ret tt s' ->
  exists d,
    execs_of (log s')
    = execs_of (log s)
      ++ [(d, git_version_cmd); (d, work_tree_cmd); (d, head_cmd)].
Proof.
  rewrite main_unfold. intros H.
  pose proof (try_finally_chdir_log w
                (args <- parse_arguments w ;; preflight w args)
                (saved_cwd s) s) as Hl.
  rewrite H in Hl. simpl in Hl. rewrite Hl. clear Hl.
  unfold try_finally in H. unfold bind in *.
  pose proof (parse_arguments_execs w s) as Hp.
  destruct (parse_arguments w s) as [args s1|e s1]; simpl in Hp.
  - destruct (issues_preflight w args s1) as [_ (k & _ & Hk & Hall)].
    destruct (preflight w args s1) as [[] s2|e s2] eqn:Hpre.
    + rewrite (Hall tt s2 eq_refl) in Hk. simpl in Hk.
      exists (cwd s1). simpl. rewrite Hk, Hp. reflexivity.
    + destruct (os_chdir w (saved_cwd s) s2); discriminate.
  - destruct (os_chdir w (saved_cwd s) s1); discriminate.
Qed.

Lemma main_return_ran_all_witness :
  exists d,
    execs_of [EvExec home git_version_cmd; EvExec home work_tree_cmd;
              EvExec home head_cmd]
    = execs_of (log start)
      ++ [(d, git_version_cmd); (d, work_tree_cmd); (d, head_cmd)].
Proof.
  exact (main_return_ran_all (world_ok []) start
           (mkOS home [EvExec home git_version_cmd; EvExec home work_tree_cmd;
                       EvExec home head_cmd]) eq_refl).
Defined.

(** X9.  A command line argparse rejects (a parse error, or strings left
    over) ends [main] with exit status 2 after the usage message: no
    command is run and the working directory is never left. *)
Theorem main_usage_error (w : World) (s : OS) :
  canonical_cwd w s ->
  (parse_known_args get_cli_args_parser (w_argv w) = ParseError
   \/ exists ns x extras,
        parse_known_args get_cli_args_parser (w_argv w)
        = ParseOk ns (x :: extras)) ->
  main w s = Raise (SystemExit 2) (mkOS (cwd s) (log s ++ [EvUsage])).
Proof.
  intros Hcan H. rewrite main_unfold.
  apply (finally_restores w _ s (mkOS (cwd s) (log s ++ [EvUsage]))
           (inr (SystemExit 2)) Hcan).
  unfold bind, parse_arguments, bind, parse_args.
  destruct H as [H|(ns & x & extras & H)]; rewrite H; reflexivity.
Qed.

Lemma main_usage_error_witness :
  main (world_ok [lit "status"]) start
  = Raise (SystemExit 2) (mkOS (cwd start) (log start ++ [EvUsage])).
Proof.
  apply (main_usage_error (world_ok [lit "status"]) start).
  - repeat split; vm_compute; reflexivity.
  - right. exists (default_namespace get_cli_args_parser), (lit "status"), [].
    reflexivity.
Defined.

(** X10.  When argparse meets the help option, [main] ends with exit status
    0 after the help text, without running any command. *)
Theorem main_help (w : World) (s : OS) :
  canonical_cwd w s ->
  parse_known_args get_cli_args_parser (w_argv w) = ParseHelp ->
  main w s = Raise (SystemExit 0) (mkOS (cwd s) (log s ++ [EvHelp])).
Proof.
  intros Hcan H. rewrite main_unfold.
  apply (finally_restores w _ s (mkOS (cwd s) (log s ++ [EvHelp]))
           (inr (SystemExit 0)) Hcan).
  unfold bind, parse_arguments, bind, parse_args. rewrite H. reflexivity.
Qed.

Lemma main_help_witness :
  main (world_ok [lit "-C"; lit "/tmp"; lit "--help"; lit "-n"]) start
  = Raise (SystemExit 0) (mkOS (cwd start) (log start ++ [EvHelp])).
Proof.
  apply (main_help (world_ok [lit "-C"; lit "/tmp"; lit "--help"; lit "-n"])
           start).
  - repeat split; vm_compute; reflexivity.
  - reflexivity.
Defined.

(** ** [main]: the directory given by [-C] *)

Lemma startswith_nil (s : str) : startswith s [] = true.
Proof. destruct s; reflexivity. Qed.

Lemma isabs_cons (p : str) :
  isabs p = true -> exists t, p = slash :: t.
Proof.
  unfold isabs. destruct p as [|c t]; [discriminate|].
  cbn [startswith]. destruct (N.eqb_spec slash c) as [<-|]; [|discriminate].
  intros _. exists t. reflexivity.
Qed.

Lemma normpath_isabs (p : str) : isabs p = true -> isabs (normpath p) = true.
Proof.
  intros H. destruct (isabs_cons p H) as [t ->].
  unfold normpath. cbn [str_eqb]. unfold isabs in H. rewrite H.
  destruct (_ && _); cbn [repeat app str_eqb]; unfold isabs;
    cbn [startswith]; rewrite N.eqb_refl, ?startswith_nil; reflexivity.
Qed.

Lemma path_join_isabs (a b : str) :
  isabs a = true -> isabs (path_join a b) = true.
Proof.
  intros H. destruct (isabs_cons a H) as [t ->]. unfold path_join.
  destruct (startswith b [slash]) eqn:Hb; [exact Hb|].
  destruct (_ || _); unfold isabs; cbn [app startswith];
    rewrite N.eqb_refl, startswith_nil; reflexivity.
Qed.

Lemma target_dir_isabs (s : OS) (p : str) :
  isabs (cwd s) = true -> isabs (target_dir s p) = true.
Proof.
  intros H. unfold target_dir. destruct (isabs p) eqn:Hp.
  - apply normpath_isabs. exact Hp.
  - apply normpath_isabs, path_join_isabs. exact H.
Qed.

(** What the first step of [main] does once the command line has parsed. *)
Lemma parse_arguments_target (w : World) (s : OS) (ns : Namespace) (p : str) :
  parse_known_args get_cli_args_parser (w_argv w) = ParseOk ns [] ->
  getattr ns (lit "cwd") = Some (PyStr p) ->
  isabs (cwd s) = true ->
  parse_arguments w s
  = match w_resolve w (target_dir s p) with
    | Some d => Ret ns (mkOS d (log s))
    | None => Raise OSError s
    end.
Proof.
  intros Hp Hc Ha.
  pose proof (target_dir_isabs s p Ha) as Ht.
  unfold parse_arguments, bind, parse_args, attr. rewrite Hp. simpl.
  rewrite Hc. simpl. unfold path_abspath, bind, os_getcwd, ret, os_chdir.
  unfold target_dir in *.
  destruct (isabs p); simpl; rewrite (path_join_abs _ _ Ht);
    destruct (w_resolve w _); reflexivity.
Qed.

(** X11.  A [-C] directory that cannot be entered is not diagnosed: [main]
    ends with an uncaught OSError (exit status 1), having printed nothing
    and run no command; the process is where it started. *)
Theorem main_missing_directory (w : World) (s : OS) (ns : Namespace) (p : str) :
  canonical_cwd w s ->
  parse_known_args get_cli_args_parser (w_argv w) = ParseOk ns [] ->
  getattr ns (lit "cwd") = Some (PyStr p) ->
  w_resolve w (target_dir s p) = None ->
  main w s = Raise OSError s /\ exit_status (main w s) = 1.
Proof.
  intros Hcan Hp Hc Hr.
  assert (Hm : main w s = Raise OSError s).
  { rewrite main_unfold.
    rewrite (finally_restores w _ s s (inr OSError) Hcan).
    - destruct s; reflexivity.
    - unfold bind.
      rewrite (parse_arguments_target w s ns p Hp Hc (proj1 Hcan)), Hr.
      reflexivity. }
  rewrite Hm. auto.
Qed.

Lemma main_missing_directory_witness :
  let w := mkWorld [lit "--cwd"; lit "gone"]
             (fun d => if str_eqb d (lit "/home/dev/project/gone")
                       then None else Some d)
             (fun _ _ cmd => git_answers cmd) in
  main w start = Raise OSError start /\ exit_status (main w start) = 1.
Proof.
  cbv zeta.
  apply (main_missing_directory _ start
           (setattr (default_namespace get_cli_args_parser) (lit "cwd")
                    (PyStr (lit "gone")))
           (lit "gone")).
  - repeat split; vm_compute; reflexivity.
  - reflexivity.
  - reflexivity.
  - reflexivity.
Defined.

(** Once the directory is entered, the run executes its commands there. *)
Lemma preflight_in_target (w : World) (s : OS) (ns : Namespace) (p d : str) :
  isabs (cwd s) = true ->
  parse_known_args get_cli_args_parser (w_argv w) = ParseOk ns [] ->
  getattr ns (lit "cwd") = Some (PyStr p) ->
  w_resolve w (target_dir s p) = Some d ->
  exists k,
    (1 <= k <= 3)%nat
    /\ execs_of (log (state_of (main w s)))
       = execs_of (log s) ++ map (pair d) (firstn k preflight_cmds).
Proof.
  intros Ha Hp Hc Hr.
  pose proof (parse_arguments_target w s ns p Hp Hc Ha) as Hpa.
  rewrite Hr in Hpa.
  rewrite (main_after_parse w s _ ns Hpa), try_finally_chdir_log.
  destruct (issues_preflight w ns (mkOS d (log s))) as [_ (k & Hk & Hl & _)].
  destruct (preflight_first_event w ns (mkOS d (log s))) as [l Hf].
  simpl in Hl, Hf, Hk. exists k. split; [|exact Hl].
  split; [|exact Hk].
  destruct k; [|lia]. exfalso.
  rewrite Hf, execs_of_app in Hl. simpl in Hl.
  rewrite app_nil_r in Hl.
  apply (f_equal (@List.length _)) in Hl. rewrite length_app in Hl.
  simpl in Hl. lia.
Qed.

(** X12.  The option [cwd] decides where git runs: from a canonical
    working directory, when the directory the option names (made absolute
    against the starting directory) can be entered, every command of the
    run is executed in the directory [os.chdir] ends in, and at least the
    version query is. *)
Theorem main_runs_in_target (w : World) (s : OS) (ns : Namespace) (p d : str) :
  canonical_cwd w s ->
  parse_known_args get_cli_args_parser (w_argv w) = ParseOk ns [] ->
  getattr ns (lit "cwd") = Some (PyStr p) ->
  w_resolve w (target_dir s p) = Some d ->
  exists k,
    (1 <= k <= 3)%nat
    /\ execs_of (log (state_of (main w s)))
       = execs_of (log s) ++ map (pair d) (firstn k preflight_cmds).
Proof.
  intros Hcan. exact (preflight_in_target w s ns p d (proj1 Hcan)).
Qed.

Lemma main_runs_in_target_witness :
  exists k,
    (1 <= k <= 3)%nat
    /\ execs_of (log (state_of (main (world_ok [lit "-C"; lit "../lib"]) start)))
       = execs_of (log start)
         ++ map (pair (lit "/home/dev/lib")) (firstn k preflight_cmds).
Proof.
  exact (main_runs_in_target (world_ok [lit "-C"; lit "../lib"]) start
           (setattr (default_namespace get_cli_args_parser) (lit "cwd")
                    (PyStr (lit "../lib")))
           (lit "../lib") (lit "/home/dev/lib")
           (conj eq_refl (conj eq_refl eq_refl)) eq_refl eq_refl eq_refl).
Defined.

Lemma split_on_nonempty (sep : char) (s : str) : split_on sep s <> [].
Proof.
  induction s as [|c s IH]; simpl; [discriminate|].
  destruct (N.eqb c sep); [discriminate|].
  destruct (split_on sep s); [contradiction|discriminate].
Qed.

Lemma split_on_app_sep (sep : char) (a b : str) :
  split_on sep (a ++ sep :: b) = split_on sep a ++ split_on sep b.
Proof.
  induction a as [|c a IH]; simpl.
  - rewrite N.eqb_refl. reflexivity.
  - destruct (N.eqb c sep); rewrite IH; [reflexivity|].
    pose proof (split_on_nonempty sep a) as Hne.
    destruct (split_on sep a); [contradiction|reflexivity].
Qed.

Lemma normpath_unfold (p : str) :
  normpath p
  = if str_eqb p [] then lit "."
    else
      let comps :=
        fold_left (norm_step (initial_slashes_of p)) (split_on slash p) [] in
      let path' := repeat slash (initial_slashes_of p) ++ join [slash] comps in
      if str_eqb path' [] then lit "." else path'.
Proof. reflexivity. Qed.

Lemma path_join_dot (c : str) :
  path_join c (lit ".")
  = if is_nil c || N.eqb (last c 0%N) slash then c ++ lit "."
    else c ++ slash :: lit ".".
Proof. reflexivity. Qed.

Lemma initial_slashes_of_3 (c0 c1 c2 : char) (t t' : str) :
  initial_slashes_of (c0 :: c1 :: c2 :: t)
  = initial_slashes_of (c0 :: c1 :: c2 :: t').
Proof.
  unfold initial_slashes_of. cbn [startswith].
  rewrite !startswith_nil. reflexivity.
Qed.

Lemma initial_slashes_join_dot (c : str) :
  isabs c = true ->
  initial_slashes_of (path_join c (lit ".")) = initial_slashes_of c.
Proof.
  intros H. destruct (isabs_cons c H) as [t ->]. rewrite path_join_dot.
  destruct t as [|c1 [|c2 t]].
  - reflexivity.
  - cbn [is_nil last orb].
    destruct (N.eqb_spec c1 slash) as [->|Hne]; [reflexivity|].
    unfold initial_slashes_of. cbn [app startswith].
    rewrite N.eqb_refl.
    assert (Hs : N.eqb slash c1 = false)
      by (apply N.eqb_neq; congruence).
    rewrite Hs. reflexivity.
  - destruct (_ || _); cbn [app]; apply initial_slashes_of_3.
Qed.

Lemma comps_join_dot (i : nat) (c : str) :
  c <> [] ->
  fold_left (norm_step i) (split_on slash (path_join c (lit "."))) []
  = fold_left (norm_step i) (split_on slash c) [].
Proof.
  intros Hne. rewrite path_join_dot.
  destruct (exists_last Hne) as (c' & x & ->).
  assert (Hnil : is_nil (c' ++ [x]) = false) by (destruct c'; reflexivity).
  rewrite Hnil, last_last. cbn [orb].
  destruct (N.eqb_spec x slash) as [->|Hx].
  - rewrite <- app_assoc.
    change ([slash] ++ lit ".") with (slash :: lit ".").
    change (c' ++ [slash]) with (c' ++ slash :: []).
    rewrite !split_on_app_sep, !fold_left_app. reflexivity.
  - rewrite split_on_app_sep, fold_left_app. reflexivity.
Qed.

Lemma normpath_join_dot (c : str) :
  isabs c = true -> normpath (path_join c (lit ".")) = normpath c.
Proof.
  intros H. rewrite !normpath_unfold.
  rewrite (initial_slashes_join_dot c H).
  destruct (isabs_cons c H) as [t Ht].
  rewrite comps_join_dot by (rewrite Ht; discriminate).
  assert (Hj : str_eqb (path_join c (lit ".")) [] = false).
  { rewrite path_join_dot, Ht. destruct (_ || _); reflexivity. }
  rewrite Hj, Ht. reflexivity.
Qed.

(** X13.  With the option [cwd] at its default, the single dot, [main]
    stays where it is: from a canonical working directory the arguments
    are parsed without a change of state and git runs in the starting
    directory. *)
Theorem main_default_directory (w : World) (s : OS) (ns : Namespace) :
  canonical_cwd w s ->
  parse_known_args get_cli_args_parser (w_argv w) = ParseOk ns [] ->
  getattr ns (lit "cwd") = Some (PyStr (lit ".")) ->
  parse_arguments w s = Ret ns s
  /\ exists k,
       (1 <= k <= 3)%nat
       /\ execs_of (log (state_of (main w s)))
          = execs_of (log s) ++ map (pair (cwd s)) (firstn k preflight_cmds).
Proof.
  intros (Ha & Hn & Hr) Hp Hc.
  assert (Ht : target_dir s (lit ".") = cwd s).
  { unfold target_dir. change (isabs (lit ".")) with false. cbv iota.
    rewrite (normpath_join_dot _ Ha). exact Hn. }
  split.
  - rewrite (parse_arguments_target w s ns (lit ".") Hp Hc Ha), Ht, Hr.
    destruct s; reflexivity.
  - apply (preflight_in_target w s ns (lit ".") (cwd s) Ha Hp Hc).
    rewrite Ht. exact Hr.
Qed.

Lemma main_default_directory_witness :
  parse_arguments (world_ok []) start
  = Ret (default_namespace get_cli_args_parser) start
  /\ exists k,
       (1 <= k <= 3)%nat
       /\ execs_of (log (state_of (main (world_ok []) start)))
          = execs_of (log start)
            ++ map (pair (cwd start)) (firstn k preflight_cmds).
Proof.
  apply (main_default_directory (world_ok []) start
           (default_namespace get_cli_args_parser)).
  - repeat split; vm_compute; reflexivity.
  - reflexivity.
  - reflexivity.
Defined.

(** ** [get_cli_args_parser]: what the command line means *)

Lemma getattr_setattr_same (ns : Namespace) (d : str) (v : pyval) :
  getattr (setattr ns d v) d = Some v.
Proof.
  induction ns as [|[n x] ns IH]; simpl.
  - rewrite str_eqb_refl. reflexivity.
  - destruct (str_eqb n d) eqn:Hn; simpl; rewrite Hn; [reflexivity|exact IH].
Qed.

Lemma getattr_setattr_other (ns : Namespace) (d d' : str) (v : pyval) :
  d <> d' -> getattr (setattr ns d v) d' = getattr ns d'.
Proof.
  intros Hne. induction ns as [|[n x] ns IH]; simpl.
  - destruct (str_eqb_spec d d'); [contradiction|reflexivity].
  - destruct (str_eqb_spec n d) as [->|Hn]; simpl.
    + destruct (str_eqb_spec d d'); [contradiction|reflexivity].
    + rewrite IH. reflexivity.
Qed.

Lemma setattr_keeps (ns : Namespace) (d d' : str) (v : pyval) :
  getattr ns d' <> None -> getattr (setattr ns d v) d' <> None.
Proof.
  intros H. destruct (str_eqb_spec d d') as [->|Hne].
  - rewrite getattr_setattr_same. discriminate.
  - rewrite getattr_setattr_other by exact Hne. exact H.
Qed.

Lemma setattr_twice (ns : Namespace) (d : str) (v v' : pyval) :
  setattr (setattr ns d v) d v' = setattr ns d v'.
Proof.
  induction ns as [|[n x] ns IH]; simpl.
  - rewrite str_eqb_refl. reflexivity.
  - destruct (str_eqb n d) eqn:Hn; simpl; rewrite Hn; [reflexivity|].
    rewrite IH. reflexivity.
Qed.

Lemma setattr_comm (ns : Namespace) (d1 d2 : str) (v1 v2 : pyval) :
  d1 <> d2 -> getattr ns d1 <> None ->
  setattr (setattr ns d1 v1) d2 v2 = setattr (setattr ns d2 v2) d1 v1.
Proof.
  intros Hne. induction ns as [|[n x] ns IH]; simpl; [congruence|].
  intros H.
  destruct (str_eqb n d1) eqn:E1; destruct (str_eqb n d2) eqn:E2; simpl;
    rewrite ?E1, ?E2.
  - apply str_eqb_eq in E1, E2. congruence.
  - reflexivity.
  - reflexivity.
  - rewrite (IH H). reflexivity.
Qed.

(** A property of the namespace that every assignment keeps holds after
    the actions of an option, and at the end of the loop. *)
Lemma take_actions_preserves (P : Namespace -> Prop) :
  (forall ns d v, P ns -> P (setattr ns d v)) ->
  forall tuples ns ns',
    P ns -> take_actions ns tuples = Some ns' -> P ns'.
Proof.
  intros Hset. induction tuples as [|[[action args] os] tuples IH];
    intros ns ns' HP H; simpl in H.
  - inversion H; subst. exact HP.
  - destruct (class action); [discriminate|].
    apply (IH _ _ (Hset _ _ _ HP) H).
Qed.

Lemma consume_preserves (p : ArgumentParser) (P : Namespace -> Prop) :
  (forall ns d v, P ns -> P (setattr ns d v)) ->
  forall n toks,
    (List.length toks <= n)%nat ->
    forall ns ex ns' ex',
      P ns -> consume p toks ns ex = ParseOk ns' ex' -> P ns'.
Proof.
  intros Hset. induction n as [|n IH]; intros toks Hlen ns ex ns' ex' HP H.
  - destruct toks; [|simpl in Hlen; lia]. simpl in H. inversion H; subst.
    exact HP.
  - destruct toks as [|t rest]; [simpl in H; inversion H; subst; exact HP|].
    simpl in Hlen.
    destruct t as [a| |a [action|] option_string explicit_arg].
    + simpl in H. apply (IH rest ltac:(lia) _ _ _ _ HP H).
    + simpl in H. apply (IH rest ltac:(lia) _ _ _ _ HP H).
    + rewrite consume_option in H.
      destruct (consume_optional p action option_string explicit_arg _)
        as [[tuples used]|]; try discriminate.
      destruct (take_actions ns tuples) as [ns1|] eqn:Hta; try discriminate.
      pose proof (take_actions_preserves P Hset _ _ _ HP Hta) as HP1.
      destruct used.
      * destruct rest as [|t' rest'].
        -- inversion H; subst. exact HP1.
        -- apply (IH rest' ltac:(simpl in Hlen; lia) _ _ _ _ HP1 H).
      * apply (IH rest ltac:(lia) _ _ _ _ HP1 H).
    + simpl in H. apply (IH rest ltac:(lia) _ _ _ _ HP H).
Qed.

Lemma parsed_has_attribute (argv : list str) (ns : Namespace)
  (extras : list str) (d : str) :
  parse_known_args get_cli_args_parser argv = ParseOk ns extras ->
  In d attributes ->
  getattr ns d <> None.
Proof.
  unfold parse_known_args. intros H Hd.
  destruct (classify get_cli_args_parser argv) as [toks|]; [|discriminate].
  apply (consume_preserves get_cli_args_parser
           (fun ns => getattr ns d <> None)
           (fun ns d' v => setattr_keeps ns d' d v)
           (List.length toks) toks (le_n _) _ _ _ _) in H; [exact H|].
  repeat (destruct Hd as [<-|Hd]; [vm_compute; discriminate|]).
  destruct Hd.
Qed.

(** X14.  Whatever the command line, a namespace that argparse returns
    holds all six attributes ([branch], [tracer_name], [message],
    [dry_run], [verbose], [cwd]): the attribute reads of [main] cannot
    fail. *)
Theorem parsed_namespace_complete (argv : list str) (ns : Namespace)
  (extras : list str) :
  parse_known_args get_cli_args_parser argv = ParseOk ns extras ->
  forall d, In d attributes -> exists v, getattr ns d = Some v.
Proof.
  intros H d Hd. pose proof (parsed_has_attribute argv ns extras d H Hd).
  destruct (getattr ns d) as [v|]; [exists v; reflexivity|contradiction].
Qed.

Lemma parsed_namespace_complete_witness :
  exists v,
    getattr (setattr (default_namespace get_cli_args_parser)
                     (lit "message") (PyStr (lit "nightly"))) (lit "cwd")
    = Some v.
Proof.
  apply (parsed_namespace_complete [lit "-m"; lit "nightly"] _ [] eq_refl
           (lit "cwd")).
  do 5 right. left. reflexivity.
Defined.

(** Both spellings of an option are read as that option, a store action
    for its attribute. *)
Lemma option_table_tokens (short long d : str) :
  In (short, long, d) option_table ->
  str_eqb short (lit "--") = false
  /\ str_eqb long (lit "--") = false
  /\ exists action,
       parse_optional get_cli_args_parser short
       = Optional (Some action) short None
       /\ parse_optional get_cli_args_parser long
          = Optional (Some action) long None
       /\ class action = StoreAction
       /\ dest action = d.
Proof.
  intros H.
  repeat (destruct H as [H|H];
          [inversion H; subst; split; [reflexivity|]; split; [reflexivity|];
           eexists; split; [vm_compute; reflexivity|];
           split; [vm_compute; reflexivity|]; split; reflexivity|]).
  destruct H.
Qed.

Lemma option_flag_token (flag d : str) :
  In (flag, d) option_flags ->
  In d attributes
  /\ str_eqb flag (lit "--") = false
  /\ exists action,
       parse_optional get_cli_args_parser flag
       = Optional (Some action) flag None
       /\ class action = StoreAction
       /\ dest action = d.
Proof.
  unfold option_flags. rewrite in_flat_map.
  intros ([[short long] d'] & Ht & Hf). simpl in Hf.
  assert (Hd : In d' attributes).
  { unfold attributes. apply (in_map snd) in Ht. exact Ht. }
  destruct (option_table_tokens short long d' Ht)
    as (Hs & Hl & action & Hps & Hpl & Hc & Hdest).
  destruct Hf as [Hf|[Hf|[]]]; inversion Hf; subst;
    (split; [exact Hd|]); (split; [assumption|]);
    exists action; auto.
Qed.

Lemma not_dashes (v : str) :
  parse_optional get_cli_args_parser v = Positional ->
  str_eqb v (lit "--") = false.
Proof.
  intros Hv. destruct (str_eqb_spec v (lit "--")) as [->|]; [|reflexivity].
  vm_compute in Hv. discriminate Hv.
Qed.

(** An option followed by an argument string stores the string. *)
Lemma store_option_value (pre : list str) (ns : Namespace) (flag d v : str) :
  parse_known_args get_cli_args_parser pre = ParseOk ns [] ->
  In (flag, d) option_flags ->
  parse_optional get_cli_args_parser v = Positional ->
  parse_known_args get_cli_args_parser (pre ++ [flag; v])
  = ParseOk (setattr ns d (PyStr v)) [].
Proof.
  intros Hpre Hin Hv.
  destruct (option_flag_token flag d Hin)
    as (_ & Hdd & action & Hpo & Hcl & Hde).
  pose proof (not_dashes v Hv) as Hvd.
  rewrite (parse_known_args_app _ _ _ _ Hpre), classify_cons, Hdd, Hpo.
  rewrite classify_cons, Hvd, Hv. cbn [classify option_map].
  rewrite consume_option.
  unfold consume_optional, match_following. rewrite Hcl.
  cbn [option_map is_nil negb take_actions]. rewrite Hcl.
  unfold get_values. cbn [remove_first]. rewrite Hvd, Hcl, Hde.
  reflexivity.
Qed.

(** X15.  An option given twice, in either spelling, keeps the value given
    last. *)
Theorem last_occurrence_wins (pre : list str) (ns : Namespace)
  (flag1 flag2 d v1 v2 : str) :
  parse_known_args get_cli_args_parser pre = ParseOk ns [] ->
  In (flag1, d) option_flags ->
  In (flag2, d) option_flags ->
  parse_optional get_cli_args_parser v1 = Positional ->
  parse_optional get_cli_args_parser v2 = Positional ->
  parse_known_args get_cli_args_parser (pre ++ [flag1; v1; flag2; v2])
  = ParseOk (setattr ns d (PyStr v2)) [].
Proof.
  intros Hpre H1 H2 Hv1 Hv2.
  pose proof (store_option_value pre ns flag1 d v1 Hpre H1 Hv1) as Hfirst.
  change (pre ++ [flag1; v1; flag2; v2])
    with (pre ++ [flag1; v1] ++ [flag2; v2]).
  rewrite app_assoc.
  rewrite (store_option_value _ _ flag2 d v2 Hfirst H2 Hv2), setattr_twice.
  reflexivity.
Qed.

Lemma last_occurrence_wins_witness :
  parse_known_args get_cli_args_parser
    ([] ++ [lit "-b"; lit "main"; lit "--branch"; lit "release"])
  = ParseOk (setattr (default_namespace get_cli_args_parser) (lit "branch")
                     (PyStr (lit "release"))) [].
Proof.
  apply (last_occurrence_wins [] _ (lit "-b") (lit "--branch") (lit "branch")
           (lit "main") (lit "release") eq_refl).
  - left. reflexivity.
  - right. left. reflexivity.
  - reflexivity.
  - reflexivity.
Defined.

(** X16.  Options that set different attributes can be given in either
    order: the parsed namespace is the same. *)
Theorem options_commute (pre : list str) (ns : Namespace)
  (flag1 d1 v1 flag2 d2 v2 : str) :
  parse_known_args get_cli_args_parser pre = ParseOk ns [] ->
  In (flag1, d1) option_flags ->
  In (flag2, d2) option_flags ->
  d1 <> d2 ->
  parse_optional get_cli_args_parser v1 = Positional ->
  parse_optional get_cli_args_parser v2 = Positional ->
  parse_known_args get_cli_args_parser (pre ++ [flag1; v1; flag2; v2])
  = parse_known_args get_cli_args_parser (pre ++ [flag2; v2; flag1; v1]).
Proof.
  intros Hpre H1 H2 Hne Hv1 Hv2.
  pose proof (store_option_value pre ns flag1 d1 v1 Hpre H1 Hv1) as Ha.
  pose proof (store_option_value pre ns flag2 d2 v2 Hpre H2 Hv2) as Hb.
  change (pre ++ [flag1; v1; flag2; v2])
    with (pre ++ [flag1; v1] ++ [flag2; v2]).
  change (pre ++ [flag2; v2; flag1; v1])
    with (pre ++ [flag2; v2] ++ [flag1; v1]).
  rewrite !app_assoc.
  rewrite (store_option_value _ _ flag2 d2 v2 Ha H2 Hv2).
  rewrite (store_option_value _ _ flag1 d1 v1 Hb H1 Hv1).
  rewrite setattr_comm; [reflexivity|exact Hne|].
  apply (parsed_has_attribute pre ns [] d1 Hpre).
  exact (proj1 (option_flag_token flag1 d1 H1)).
Qed.

Lemma options_commute_witness :
  parse_known_args get_cli_args_parser
    ([] ++ [lit "-v"; lit "1"; lit "--cwd"; lit "/tmp"])
  = parse_known_args get_cli_args_parser
      ([] ++ [lit "--cwd"; lit "/tmp"; lit "-v"; lit "1"]).
Proof.
  apply (options_commute [] (default_namespace get_cli_args_parser)
           (lit "-v") (lit "verbose") (lit "1")
           (lit "--cwd") (lit "cwd") (lit "/tmp") eq_refl).
  - do 8 right. left. reflexivity.
  - do 11 right. left. reflexivity.
  - discriminate.
  - reflexivity.
  - reflexivity.
Defined.

(** X17.  The short and the long spelling of an option are
    interchangeable: after arguments that parse, replacing one by the
    other changes nothing in the result, whatever follows. *)
Theorem short_and_long_agree (pre : list str) (ns : Namespace)
  (short long d : str) (rest : list str) :
  parse_known_args get_cli_args_parser pre = ParseOk ns [] ->
  In (short, long, d) option_table ->
  parse_known_args get_cli_args_parser (pre ++ short :: rest)
  = parse_known_args get_cli_args_parser (pre ++ long :: rest).
Proof.
  intros Hpre Hin.
  destruct (option_table_tokens short long d Hin)
    as (Hs & Hl & action & Hps & Hpl & Hcl & _).
  rewrite !(parse_known_args_app _ _ _ _ Hpre), !classify_cons, Hs, Hl,
    Hps, Hpl.
  destruct (classify get_cli_args_parser rest) as [toks|]; [|reflexivity].
  cbn [option_map]. rewrite !consume_option.
  unfold consume_optional, match_following. rewrite Hcl.
  destruct (match toks with TokA x :: _ => Some x | _ => None end);
    [|reflexivity].
  cbn [option_map is_nil negb take_actions]. rewrite Hcl. reflexivity.
Qed.

Lemma short_and_long_agree_witness :
  parse_known_args get_cli_args_parser
    ([lit "-v"; lit "yes"] ++ lit "-t" :: [lit "trace"; lit "-h"])
  = parse_known_args get_cli_args_parser
      ([lit "-v"; lit "yes"] ++ lit "--tracer-name" :: [lit "trace"; lit "-h"]).
Proof.
  apply (short_and_long_agree [lit "-v"; lit "yes"]
           (setattr (default_namespace get_cli_args_parser) (lit "verbose")
                    (PyStr (lit "yes")))
           (lit "-t") (lit "--tracer-name") (lit "tracer_name")
           [lit "trace"; lit "-h"] eq_refl).
  right. left. reflexivity.
Defined.

Lemma attached_token (short long d v : str) :
  In (short, long, d) option_table ->
  str_eqb (long ++ equals :: v) (lit "--") = false
  /\ exists action,
       parse_optional get_cli_args_parser (long ++ equals :: v)
       = Optional (Some action) long (Some v)
       /\ class action = StoreAction
       /\ dest action = d.
Proof.
  intros H.
  repeat (destruct H as [H|H];
          [inversion H; subst; split; [reflexivity|];
           eexists; split; [vm_compute; reflexivity|]; split; reflexivity|]).
  destruct H.
Qed.

Lemma consume_explicit_store (p : ArgumentParser) (action : Action)
  (option_string e : str) (following : option str) :
  class action = StoreAction ->
  consume_explicit p action option_string e following
  = Some ([(action, [e], option_string)], false).
Proof. intros H. destruct e; simpl; rewrite H; reflexivity. Qed.

(** X18.  In the attached spelling [--option=VALUE] the value is taken as
    it is, also when it is empty or starts with a dash (which the detached
    spelling would read as an option); the value [--] apart, the attribute
    holds the string after the equals sign. *)
Theorem attached_value_is_stored (pre : list str) (ns : Namespace)
  (short long d v : str) :
  parse_known_args get_cli_args_parser pre = ParseOk ns [] ->
  In (short, long, d) option_table ->
  v <> lit "--" ->
  parse_known_args get_cli_args_parser (pre ++ [long ++ equals :: v])
  = ParseOk (setattr ns d (PyStr v)) [].
Proof.
  intros Hpre Hin Hv.
  destruct (attached_token short long d v Hin)
    as (Hdd & action & Hpo & Hcl & Hde).
  assert (Hvd : str_eqb v (lit "--") = false)
    by (destruct (str_eqb_spec v (lit "--")); [contradiction|reflexivity]).
  rewrite (parse_known_args_app _ _ _ _ Hpre), classify_cons, Hdd, Hpo.
  cbn [classify option_map]. rewrite consume_option.
  unfold consume_optional. rewrite (consume_explicit_store _ _ _ _ _ Hcl).
  cbn [take_actions]. rewrite Hcl.
  unfold get_values. cbn [remove_first]. rewrite Hvd, Hcl, Hde.
  reflexivity.
Qed.

Lemma attached_value_is_stored_witness :
  parse_known_args get_cli_args_parser
    ([] ++ [lit "--message" ++ equals :: lit "-wip-"])
  = ParseOk (setattr (default_namespace get_cli_args_parser) (lit "message")
                     (PyStr (lit "-wip-"))) [].
Proof.
  apply (attached_value_is_stored [] _ (lit "-m") (lit "--message")
           (lit "message") (lit "-wip-") eq_refl).
  - do 2 right. left. reflexivity.
  - discriminate.
Defined.

(** X19.  The script takes no positional argument and no other option:
    after arguments that parse, a string that is not read as one of the
    options of the parser makes [parse_args] print the usage and exit with
    status 2. *)
Theorem stray_argument_is_usage_error (pre : list str) (ns : Namespace)
  (a : str) (s : OS) :
  parse_known_args get_cli_args_parser pre = ParseOk ns [] ->
  (forall action option_string explicit_arg,
      parse_optional get_cli_args_parser a
      <> Optional (Some action) option_string explicit_arg) ->
  parse_args get_cli_args_parser (pre ++ [a]) s
  = Raise (SystemExit 2) (mkOS (cwd s) (log s ++ [EvUsage])).
Proof.
  intros Hpre Ha. unfold parse_args.
  rewrite (parse_known_args_app _ _ _ _ Hpre), classify_cons.
  destruct (str_eqb a (lit "--")); [reflexivity|].
  destruct (parse_optional get_cli_args_parser a)
    as [|[action|] option_string explicit_arg|] eqn:Hp;
    try reflexivity.
  exfalso. exact (Ha _ _ _ eq_refl).
Qed.

Lemma stray_argument_is_usage_error_witness :
  parse_args get_cli_args_parser
    ([lit "-b"; lit "main"] ++ [lit "--force"]) start
  = Raise (SystemExit 2) (mkOS (cwd start) (log start ++ [EvUsage])).
Proof.
  apply (stray_argument_is_usage_error [lit "-b"; lit "main"]
           (setattr (default_namespace get_cli_args_parser) (lit "branch")
                    (PyStr (lit "main")))
           (lit "--force") start eq_refl).
  intros action option_string explicit_arg. vm_compute. discriminate.
Defined.

(** ** [main]: what it prints and what it ignores *)

Lemma silent_ret {A} (a : A) : silent (ret a).
Proof. intros s. reflexivity. Qed.

Lemma silent_raise {A} (e : exn) : silent (@raise A e).
Proof. intros s. reflexivity. Qed.

Lemma silent_eprint (args : list str) : silent (eprint args).
Proof.
  intros s. unfold eprint, emit. simpl. rewrite stdout_of_app. simpl.
  apply app_nil_r.
Qed.

Lemma silent_run_command (w : World) (cmd : command) :
  silent (run_command w cmd false false).
Proof.
  intros s. destruct (run_command_state w cmd false false s) as [_ Hl].
  rewrite Hl, stdout_of_app. simpl. apply app_nil_r.
Qed.

Lemma silent_bind {A B} (m : M A) (k : A -> M B) :
  silent m -> (forall a, silent (k a)) -> silent (bind m k).
Proof.
  intros Hm Hk s. unfold bind. specialize (Hm s).
  destruct (m s) as [a s1|e s1]; simpl in *; [|exact Hm].
  rewrite (Hk a s1). exact Hm.
Qed.

Ltac silent_tac :=
  repeat first
    [ apply silent_ret | apply silent_raise | apply silent_eprint
    | apply silent_run_command
    | apply silent_bind; [|intros]
    | match goal with
      | |- silent (match ?x with _ => _ end) => destruct x
      | |- silent (sys_exit _) => apply silent_raise
      end ].

Lemma silent_check_valid_repo (w : World) : silent (check_valid_repo w).
Proof. unfold check_valid_repo. silent_tac. Qed.

Lemma silent_get_base_commit (w : World) : silent (get_base_commit w).
Proof. unfold get_base_commit. silent_tac. Qed.

(** X20.  [main] never echoes the commands it runs.  Once the arguments are
    parsed, all it writes to stdout is the line with the git version, and
    only when the option [verbose] is truthy and the version query returned
    code 0. *)
Theorem main_prints_only_version (w : World) (s s1 : OS) (args : Namespace)
  (v : pyval) :
  parse_arguments w s = Ret args s1 ->
  getattr args (lit "verbose") = Some v ->
  stdout_of (log (state_of (main w s)))
  = stdout_of (log s1)
    ++ (if truthy v
        then version_line
               (run_command w (CmdStr git_version_cmd) false false s1)
        else []).
Proof.
  intros Hp Hv.
  rewrite (main_after_parse w s s1 args Hp), try_finally_chdir_log.
  unfold preflight, check_git_installed, bind.
  pose proof (silent_run_command w (CmdStr git_version_cmd) s1) as Hq.
  destruct (run_command w (CmdStr git_version_cmd) false false s1)
    as [[ret_ git_version] s2|e s2]; simpl in Hq; simpl version_line.
  - destruct (ret_ =? 0); simpl.
    + unfold attr. rewrite Hv. simpl.
      assert (Hrest : silent (fun s' =>
                match check_valid_repo w s' with
                | Ret _ s'' => get_base_commit w s''
                | Raise e s'' => Raise e s''
                end)).
      { apply (silent_bind (check_valid_repo w) (fun _ => get_base_commit w));
          [apply silent_check_valid_repo
          | intros; apply silent_get_base_commit]. }
      destruct (truthy v); simpl.
      * rewrite Hrest. simpl. rewrite stdout_of_app, Hq. reflexivity.
      * rewrite Hrest, Hq, app_nil_r. reflexivity.
    + rewrite stdout_of_app, Hq. simpl.
      destruct (truthy v); rewrite !app_nil_r; reflexivity.
  - simpl. rewrite Hq. destruct (truthy v); rewrite app_nil_r; reflexivity.
Qed.

Lemma main_prints_only_version_witness :
  stdout_of (log (state_of (main (world_ok [lit "-v"; lit "false"]) start)))
  = stdout_of (log start)
    ++ (if truthy (PyStr (lit "false"))
        then version_line
               (run_command (world_ok [lit "-v"; lit "false"])
                  (CmdStr git_version_cmd) false false start)
        else []).
Proof.
  exact (main_prints_only_version (world_ok [lit "-v"; lit "false"]) start
           start
           (setattr (default_namespace get_cli_args_parser) (lit "verbose")
                    (PyStr (lit "false")))
           (PyStr (lit "false")) eq_refl eq_refl).
Defined.

Lemma check_git_installed_verbose_only (w : World) (args args' : Namespace)
  (s : OS) :
  getattr args (lit "verbose") = getattr args' (lit "verbose") ->
  check_git_installed w args s = check_git_installed w args' s.
Proof.
  intros H. unfold check_git_installed, bind, attr.
  destruct (run_command w (CmdStr git_version_cmd) false false s)
    as [[ret_ git_version] s2|e s2]; [|reflexivity].
  destruct (negb (ret_ =? 0)); simpl; [reflexivity|].
  rewrite H. reflexivity.
Qed.

(** X21.  [main] reads two options only, [cwd] and [verbose].  Two command
    lines that parse to namespaces agreeing on these two give the same
    run in the same environment: [--branch], [--tracer-name], [--message]
    and [--dry-run] have no effect at all. *)
Theorem unread_options_change_nothing (w w' : World) (s : OS)
  (ns ns' : Namespace) :
  w_resolve w' = w_resolve w ->
  w_spawn w' = w_spawn w ->
  parse_known_args get_cli_args_parser (w_argv w) = ParseOk ns [] ->
  parse_known_args get_cli_args_parser (w_argv w') = ParseOk ns' [] ->
  getattr ns (lit "cwd") = getattr ns' (lit "cwd") ->
  getattr ns (lit "verbose") = getattr ns' (lit "verbose") ->
  main w' s = main w s.
Proof.
  destruct w as [argv resolve spawn], w' as [argv' resolve' spawn'].
  simpl. intros -> -> Hp Hp' Hc Hv.
  rewrite !main_unfold.
  unfold try_finally, bind, parse_arguments, bind, parse_args. simpl.
  rewrite Hp, Hp'. simpl. unfold attr. rewrite Hc.
  destruct (getattr ns' (lit "cwd")) as [[|p|l]|]; simpl; try reflexivity.
  destruct (path_abspath p s) as [q s0|e s0]; [|reflexivity].
  change (os_chdir (mkWorld argv' resolve spawn) q s0)
    with (os_chdir (mkWorld argv resolve spawn) q s0).
  destruct (os_chdir (mkWorld argv resolve spawn) q s0) as [[] s1|e s1];
    [|reflexivity].
  simpl.
  change (preflight (mkWorld argv' resolve spawn) ns' s1)
    with (preflight (mkWorld argv resolve spawn) ns' s1).
  assert (Hpre : preflight (mkWorld argv resolve spawn) ns s1
                 = preflight (mkWorld argv resolve spawn) ns' s1).
  { unfold preflight, bind.
    rewrite (check_git_installed_verbose_only _ ns ns' s1 Hv). reflexivity. }
  rewrite Hpre. reflexivity.
Qed.

Lemma unread_options_change_nothing_witness :
  main (world_ok [lit "-n"; lit "1"; lit "-m"; lit "nightly"]) start
  = main (world_ok [lit "--branch"; lit "develop"]) start.
Proof.
  exact (unread_options_change_nothing
           (world_ok [lit "--branch"; lit "develop"])
           (world_ok [lit "-n"; lit "1"; lit "-m"; lit "nightly"]) start
           (setattr (default_namespace get_cli_args_parser) (lit "branch")
                    (PyStr (lit "develop")))
           (setattr (setattr (default_namespace get_cli_args_parser)
                             (lit "dry_run") (PyStr (lit "1")))
                    (lit "message") (PyStr (lit "nightly")))
           eq_refl eq_refl eq_refl eq_refl eq_refl eq_refl).
Defined.

(** ** C10: the values of -n and -v *)










